(** * ol/render/Feature: the render feature and its derived-geometry cache

    A shallow embedding of [src/ol/render/Feature.js] (class [RenderFeature])
    and of the helper functions it imports, followed by the properties of
    the feature facade: extent computation, lazy caching of derived
    geometry, per-ring midpoints, the tile-pixel to projected transform,
    property lookup and the frame of every accessor.

    Numbers.  A JavaScript number is modelled by [num]: a finite value is an
    exact rational ([Qc]), and the three special values [+Infinity],
    [-Infinity] and [NaN] are kept with their IEEE behaviour in arithmetic,
    comparison, [Math.min] and [Math.max].  Rounding, the overflow of a
    finite result to an infinity and the sign of zero are not represented:
    [nadd], [nmul] and [ndiv] are exact on finite values, and a property
    that needs a finite scale takes the computed scale as finite.  Reading a number array out of range gives [undefined]
    in JavaScript, which every arithmetic operation turns into [NaN]; the
    model reads [NaN] there.

    State.  A method is a function from the receiver to its result and the
    receiver as the call leaves it; the three cache fields are options.
    [transform] also threads the matrix [tmpTransform] that the module
    keeps, and answers [None] where the JavaScript throws.

    Layout.  The model (numbers, arrays, imported helpers, data model,
    methods), the vocabulary of the properties with sample data, the lemmas
    on each engine, and last the properties themselves, numbered C1 to
    C10 as in the specification's list of properties, followed by further
    properties of the methods, marked X.

    Properties.  The property object is a JavaScript object: [get] reads it
    with a plain bracket access, which walks the prototype chain. *)

From Stdlib Require Import ZArith QArith Qcanon Lia List.
From stdpp Require Import base option list numbers strings gmap.

Local Open Scope Z_scope.

(* ================================================================== *)
(** ** JavaScript numbers *)
(* ================================================================== *)

Inductive num : Type :=
| Fin (q : Qc)
| PosInf
| NegInf
| NaN.

Definition num_eq_dec (a b : num) : {a = b} + {a <> b}.
Proof.
  destruct a as [p| | |], b as [q| | |];
    try (left; reflexivity); try (right; discriminate).
  destruct (Qc_eq_dec p q) as [->|Hne];
    [left; reflexivity | right; intros [= ?]; contradiction].
Defined.

#[global] Instance num_eq_decision : EqDecision num := num_eq_dec.

(** The sign of a rational as a comparison with zero:
    [Lt] negative, [Eq] zero, [Gt] positive. *)
Definition Qc_sign (q : Qc) : comparison := (q ?= 0)%Qc.

(** An infinity with the sign of [c]; a zero sign gives [NaN]
    ([0 * Infinity], [0 / 0]). *)
Definition signed_inf (c : comparison) : num :=
  match c with
  | Gt => PosInf
  | Lt => NegInf
  | Eq => NaN
  end.

(** Unary minus. *)
Definition nopp (a : num) : num :=
  match a with
  | Fin q => Fin (- q)%Qc
  | PosInf => NegInf
  | NegInf => PosInf
  | NaN => NaN
  end.

(** [a + b]. *)
Definition nadd (a b : num) : num :=
  match a, b with
  | NaN, _ | _, NaN => NaN
  | Fin p, Fin q => Fin (p + q)%Qc
  | PosInf, NegInf | NegInf, PosInf => NaN
  | PosInf, _ | _, PosInf => PosInf
  | NegInf, _ | _, NegInf => NegInf
  end.

(** [a - b]. *)
Definition nsub (a b : num) : num := nadd a (nopp b).

(** [a * b]. *)
Definition nmul (a b : num) : num :=
  match a, b with
  | NaN, _ | _, NaN => NaN
  | Fin p, Fin q => Fin (p * q)%Qc
  | Fin p, PosInf | PosInf, Fin p => signed_inf (Qc_sign p)
  | Fin p, NegInf | NegInf, Fin p => signed_inf (CompOpp (Qc_sign p))
  | PosInf, PosInf | NegInf, NegInf => PosInf
  | PosInf, NegInf | NegInf, PosInf => NegInf
  end.

(** [a / b].  A finite non-zero value over zero is an infinity, [0 / 0] is
    [NaN], a finite value over an infinity is zero. *)
Definition ndiv (a b : num) : num :=
  match a, b with
  | NaN, _ | _, NaN => NaN
  | Fin p, Fin q =>
      match Qc_sign q with
      | Eq => signed_inf (Qc_sign p)
      | _ => Fin (p / q)%Qc
      end
  | Fin _, _ => Fin 0%Qc
  | PosInf, Fin q =>
      match Qc_sign q with Lt => NegInf | _ => PosInf end
  | NegInf, Fin q =>
      match Qc_sign q with Lt => PosInf | _ => NegInf end
  | _, _ => NaN
  end.

(** [a <= b] as JavaScript evaluates it: false as soon as one side is
    [NaN]. *)
Definition nleb (a b : num) : bool :=
  match a, b with
  | NaN, _ | _, NaN => false
  | Fin p, Fin q => match (p ?= q)%Qc with Gt => false | _ => true end
  | NegInf, _ | _, PosInf => true
  | _, _ => false
  end.

Definition nle (a b : num) : Prop := nleb a b = true.

(** [Math.min(a, b)] and [Math.max(a, b)]: [NaN] when an argument is. *)
Definition Math_min (a b : num) : num :=
  match a, b with
  | NaN, _ | _, NaN => NaN
  | _, _ => if nleb a b then a else b
  end.

Definition Math_max (a b : num) : num :=
  match a, b with
  | NaN, _ | _, NaN => NaN
  | _, _ => if nleb a b then b else a
  end.

Definition is_finite (a : num) : Prop :=
  match a with Fin _ => True | _ => False end.

Declare Scope num_scope.
Delimit Scope num_scope with num.
Bind Scope num_scope with num.
Infix "+" := nadd : num_scope.
Infix "-" := nsub : num_scope.
Infix "*" := nmul : num_scope.
Infix "/" := ndiv : num_scope.
Notation "- x" := (nopp x) : num_scope.
Infix "<=" := nle : num_scope.

(** Numerals of the source text. *)
Definition num_of_Z (z : Z) : num := Fin (Qc_of_Z z).
Notation "0" := (num_of_Z 0) : num_scope.
Notation "2" := (num_of_Z 2) : num_scope.

(* ================================================================== *)
(** ** JavaScript arrays of numbers *)
(* ================================================================== *)

(** [a[j]]: the element, [NaN] (for [undefined]) out of range. *)
Definition aget (a : list num) (j : Z) : num :=
  if j <? 0 then NaN else default NaN (a !! Z.to_nat j).

(** [a[j] = v] for [0 <= j]: overwrite in range, extend the array
    otherwise, the skipped slots being holes (read as [NaN]). *)
Definition aset (a : list num) (j : Z) (v : num) : list num :=
  let n := Z.to_nat j in
  if (n <? length a)%nat then <[n := v]> a
  else a ++ replicate (n - length a)%nat NaN ++ [v].

(** [a.length = n]: truncate, or pad with holes. *)
Definition set_length (a : list num) (n : Z) : list num :=
  take (Z.to_nat n) a ++ replicate (Z.to_nat n - length a)%nat NaN.

(** [a.length]. *)
Definition alength (a : list num) : Z := Z.of_nat (length a).

(** The values of [j] in [for (j = offset; j < end; j += stride)], for a
    positive [stride]; the source only ever passes the literal [2]. *)
Definition loop_indices (offset end_ stride : Z) : list Z :=
  if stride <=? 0 then []
  else
    map (fun k => offset + Z.of_nat k * stride)
        (seq 0 (Z.to_nat ((end_ - offset + stride - 1) / stride))).

(* ================================================================== *)
(** ** Imported helpers: ol/extent, ol/transform, ol/geom/flat/transform,
       ol/array, ol/geom/GeometryType *)
(* ================================================================== *)

(** An extent is the array [[minX, minY, maxX, maxY]]; a transform is the
    array of the six entries of an affine matrix. *)
Abbreviation Extent := (list num).
Abbreviation Transform := (list num).

(** Modelled from the spec: the tags of ol/geom/GeometryType.js, "a closed
    enumeration {Point, LineString, Polygon, MultiPoint, MultiLineString,
    MultiPolygon, ...}". *)
Inductive GeometryType : Type :=
| POINT
| LINE_STRING
| LINEAR_RING
| POLYGON
| MULTI_POINT
| MULTI_LINE_STRING
| MULTI_POLYGON
| GEOMETRY_COLLECTION
| CIRCLE.

#[global] Instance GeometryType_eq_dec : EqDecision GeometryType.
Proof. solve_decision. Defined.

(** Modelled from the spec: [createOrUpdate] of ol/extent.js, called
    without a destination extent: the box as a new array. *)
Definition createOrUpdate (minX minY maxX maxY : num) : Extent :=
  [minX; minY; maxX; maxY].

(** Modelled from the spec: [createOrUpdateFromCoordinate] of ol/extent.js.
    "If type is Point: extent degenerates to a zero-area box at the single
    coordinate pair." *)
Definition createOrUpdateFromCoordinate (coordinate : list num) : Extent :=
  let x := aget coordinate 0 in
  let y := aget coordinate 1 in
  createOrUpdate x y x y.

(** Modelled from the spec: the empty extent the running min/max starts
    from, every bound at the infinity that any coordinate improves on. *)
Definition createOrUpdateEmpty : Extent :=
  createOrUpdate PosInf PosInf NegInf NegInf.

(** Modelled from the spec: one step of "tracking running min/max of x and
    y independently" ([extendXY] of ol/extent.js). *)
Definition extendXY (extent : Extent) (x y : num) : Extent :=
  let extent := aset extent 0 (Math_min (aget extent 0) x) in
  let extent := aset extent 1 (Math_min (aget extent 1) y) in
  let extent := aset extent 2 (Math_max (aget extent 2) x) in
  let extent := aset extent 3 (Math_max (aget extent 3) y) in
  extent.

(** Modelled from the spec: [extendFlatCoordinates] of ol/extent.js, the
    scan [for (; offset < end; offset += stride)] over the buffer. *)
Definition extendFlatCoordinates (extent : Extent) (flatCoordinates : list num)
    (offset end_ stride : Z) : Extent :=
  fold_left
    (fun extent j =>
       extendXY extent (aget flatCoordinates j) (aget flatCoordinates (j + 1)))
    (loop_indices offset end_ stride) extent.

(** Modelled from the spec: [createOrUpdateFromFlatCoordinates] of
    ol/extent.js.  "Otherwise: scan the entire coordinate buffer at stride
    2, tracking running min/max of x and y independently." *)
Definition createOrUpdateFromFlatCoordinates (flatCoordinates : list num)
    (offset end_ stride : Z) : Extent :=
  extendFlatCoordinates createOrUpdateEmpty flatCoordinates offset end_ stride.

(** Modelled from the spec: [getCenter] and [getHeight] of ol/extent.js. *)
Definition getCenter (extent : Extent) : list num :=
  [ ((aget extent 0 + aget extent 2) / 2)%num;
    ((aget extent 1 + aget extent 3) / 2)%num ].

Definition getHeight (extent : Extent) : num :=
  (aget extent 3 - aget extent 1)%num.

(** Modelled from the spec: [extend] of ol/array.js appends the elements of
    [data] to [arr]. *)
Definition extend (arr data : list num) : list num := arr ++ data.

(** Modelled from the spec: [create] of ol/transform.js, the identity
    matrix. *)
Definition createTransform : Transform :=
  [num_of_Z 1; 0%num; 0%num; num_of_Z 1; 0%num; 0%num].

(** The six assignments [transform[0] = t0; ...; transform[5] = t5]. *)
Definition set6 (transform : Transform) (t0 t1 t2 t3 t4 t5 : num) : Transform :=
  let transform := aset transform 0 t0 in
  let transform := aset transform 1 t1 in
  let transform := aset transform 2 t2 in
  let transform := aset transform 3 t3 in
  let transform := aset transform 4 t4 in
  let transform := aset transform 5 t5 in
  transform.

(** Modelled from the spec: [compose] of ol/transform.js.  "Build a
    6-parameter affine transform (scale, rotation=0, translate)": the six
    entries of translate(dx1, dy1) . rotate(angle) . scale(sx, sy) .
    translate(dx2, dy2), written into [transform].  [sin] and [cos] are
    [Math.sin(angle)] and [Math.cos(angle)]. *)
Definition composeTransform_with (sin cos : num) (transform : Transform)
    (dx1 dy1 sx sy dx2 dy2 : num) : Transform :=
  set6 transform
    (sx * cos)%num
    (sy * sin)%num
    (- sx * sin)%num
    (sy * cos)%num
    (dx2 * sx * cos - dy2 * sx * sin + dx1)%num
    (dx2 * sy * sin + dy2 * sy * cos + dy1)%num.

(** The image of the point [(x, y)] under the matrix [transform]. *)
Definition apply_transform (transform : Transform) (p : num * num) : num * num :=
  let '(x, y) := p in
  ( (aget transform 0 * x + aget transform 2 * y + aget transform 4)%num,
    (aget transform 1 * x + aget transform 3 * y + aget transform 5)%num ).

(** Modelled from the spec: [transform2D] of ol/geom/flat/transform.js as
    the feature calls it, the destination being the source array itself.
    "Apply the transform to every coordinate pair in place, stride 2,
    overwriting the buffer."  The loop state is the array and the write
    index [i]; each round reads the pair at [j] and writes its image at [i];
    at the end the array is cut to [i] entries if its length differs. *)
Definition transform2D_step (transform : Transform) (st : list num * Z) (j : Z)
    : list num * Z :=
  let '(dest, i) := st in
  let x := aget dest j in
  let y := aget dest (j + 1) in
  let '(x', y') := apply_transform transform (x, y) in
  let dest := aset dest i x' in
  let dest := aset dest (i + 1) y' in
  (dest, i + 2).

Definition transform2D (flatCoordinates : list num) (offset end_ stride : Z)
    (transform : Transform) : list num :=
  let '(dest, i) :=
    fold_left (transform2D_step transform)
              (loop_indices offset end_ stride) (flatCoordinates, 0) in
  if decide (alength dest = i) then dest else set_length dest i.

(** Modelled from the spec: a projection object of ol/proj, "an object
    exposing its pixel extent and world extent". *)
Record Projection : Type := {
  proj_extent : Extent;        (* getExtent() *)
  proj_worldExtent : Extent    (* getWorldExtent() *)
}.

(** A [ProjectionLike]: a projection object or the code of one. *)
Inductive ProjectionLike : Type :=
| ProjObject (p : Projection)
| ProjCode (code : string).

(* ================================================================== *)
(** ** The data model of [RenderFeature] *)
(* ================================================================== *)

(** The value of a property ([*] in the source's type annotation); a
    function and an object are known by name. *)
Inductive JsValue : Type :=
| JsUndefined
| JsNull
| JsBoolean (b : bool)
| JsNumber (n : num)
| JsString (s : string)
| JsFunction (name : string)
| JsObjectRef (name : string).

(** A JavaScript object used as a mapping ([Object.<string, *>]): its own
    properties, and the own properties of the objects of its prototype
    chain, nearest first.  An object literal has the chain
    [[Object.prototype]]; an object made by [Object.create(null)] has the
    empty chain. *)
Record JsObject : Type := {
  own_properties : gmap string JsValue;
  prototype_chain : list (gmap string JsValue)
}.

(** The lookup along a prototype chain: the first object that has [key]
    answers, [undefined] when none has. *)
Fixpoint chain_get (chain : list (gmap string JsValue)) (key : string)
    : JsValue :=
  match chain with
  | [] => JsUndefined
  | object :: chain' =>
      match object !! key with
      | Some v => v
      | None => chain_get chain' key
      end
  end.

(** [object[key]]: an own property first, then the prototype chain. *)
Definition js_get (object : JsObject) (key : string) : JsValue :=
  match own_properties object !! key with
  | Some v => v
  | None => chain_get (prototype_chain object) key
  end.

(** What every object literal inherits from [Object.prototype]: its
    methods, as functions, and the accessor [__proto__], which on an object
    literal answers [Object.prototype]. *)
Definition Object_prototype : gmap string JsValue :=
  list_to_map
    (("__proto__", JsObjectRef "Object.prototype")
     :: map (fun name => (name, JsFunction name))
          [ "__defineGetter__"; "__defineSetter__"; "__lookupGetter__";
            "__lookupSetter__"; "constructor"; "hasOwnProperty";
            "isPrototypeOf"; "propertyIsEnumerable"; "toLocaleString";
            "toString"; "valueOf" ]).

(** The object literal [{k1: v1, ...}] with the entries [own]. *)
Definition object_literal (own : gmap string JsValue) : JsObject :=
  {| own_properties := own; prototype_chain := [Object_prototype] |}.

(** [number|string|undefined]. *)
Inductive FeatureId : Type :=
| IdUndefined
| IdNumber (n : num)
| IdString (s : string).

(** [Array<number>|Array<Array<number>>]: ends, or endss. *)
Inductive Ends : Type :=
| FlatEnds (ends : list Z)
| NestedEnds (endss : list (list Z)).

(** An element [ends[i]] of either shape.  The midpoint loop hands it on as
    the [end] and then the [offset] of a slice, whatever it is. *)
Inductive EndsItem : Type :=
| EndNumber (end_ : Z)
| EndArray (ends : list Z).

Definition ends_items (ends : Ends) : list EndsItem :=
  match ends with
  | FlatEnds l => map EndNumber l
  | NestedEnds l => map EndArray l
  end.

(** The fields the constructor declares.  [extent_] starts [undefined],
    [flatInteriorPoints_] and [flatMidpoints_] start [null]: [None] here.
    An array is truthy whatever it holds, so [!this.slot_] is true exactly
    on [None]. *)
Record RenderFeature : Type := {
  extent_ : option Extent;
  id_ : FeatureId;
  type_ : GeometryType;
  flatCoordinates_ : list num;
  flatInteriorPoints_ : option (list num);
  flatMidpoints_ : option (list num);
  ends_ : Ends;
  properties_ : JsObject
}.

(** [new RenderFeature(type, flatCoordinates, ends, properties, id)]. *)
Definition new_RenderFeature (type : GeometryType) (flatCoordinates : list num)
    (ends : Ends) (properties : JsObject) (id : FeatureId)
    : RenderFeature :=
  {| extent_ := None;
     id_ := id;
     type_ := type;
     flatCoordinates_ := flatCoordinates;
     flatInteriorPoints_ := None;
     flatMidpoints_ := None;
     ends_ := ends;
     properties_ := properties |}.

(** Assignments to the fields the methods write. *)
Definition set_extent_ (v : option Extent) (this : RenderFeature) : RenderFeature :=
  {| extent_ := v;
     id_ := id_ this;
     type_ := type_ this;
     flatCoordinates_ := flatCoordinates_ this;
     flatInteriorPoints_ := flatInteriorPoints_ this;
     flatMidpoints_ := flatMidpoints_ this;
     ends_ := ends_ this;
     properties_ := properties_ this |}.

Definition set_flatInteriorPoints_ (v : option (list num)) (this : RenderFeature)
    : RenderFeature :=
  {| extent_ := extent_ this;
     id_ := id_ this;
     type_ := type_ this;
     flatCoordinates_ := flatCoordinates_ this;
     flatInteriorPoints_ := v;
     flatMidpoints_ := flatMidpoints_ this;
     ends_ := ends_ this;
     properties_ := properties_ this |}.

Definition set_flatMidpoints_ (v : option (list num)) (this : RenderFeature)
    : RenderFeature :=
  {| extent_ := extent_ this;
     id_ := id_ this;
     type_ := type_ this;
     flatCoordinates_ := flatCoordinates_ this;
     flatInteriorPoints_ := flatInteriorPoints_ this;
     flatMidpoints_ := v;
     ends_ := ends_ this;
     properties_ := properties_ this |}.

Definition set_flatCoordinates_ (v : list num) (this : RenderFeature)
    : RenderFeature :=
  {| extent_ := extent_ this;
     id_ := id_ this;
     type_ := type_ this;
     flatCoordinates_ := v;
     flatInteriorPoints_ := flatInteriorPoints_ this;
     flatMidpoints_ := flatMidpoints_ this;
     ends_ := ends_ this;
     properties_ := properties_ this |}.

(** A method is a function of the receiver that returns its result and the
    receiver as the method leaves it. *)
Definition Method (A : Type) : Type := RenderFeature -> A * RenderFeature.

#[global] Instance Method_ret : MRet Method :=
  fun A (a : A) this => (a, this).

#[global] Instance Method_bind : MBind Method :=
  fun A B (k : A -> Method B) (m : Method A) this =>
    let '(a, this') := m this in k a this'.

(** [this.field_] *)
Definition field {A} (f : RenderFeature -> A) : Method A :=
  fun this => (f this, this).

(** [this.field_ = v] *)
Definition assign (set : RenderFeature -> RenderFeature) : Method unit :=
  fun this => (tt, set this).

#[global] Instance Method_fmap : FMap Method :=
  fun A B (g : A -> B) (m : Method A) this =>
    let '(a, this') := m this in (g a, this').

(** The result and the final receiver of a call. *)
Definition result {A} (r : A * RenderFeature) : A := fst r.
Definition after {A} (r : A * RenderFeature) : RenderFeature := snd r.

(* ================================================================== *)
(** ** Imported engines: interpolation, interior points, projections *)
(* ================================================================== *)

(** The functions of ol/geom/flat/interpolate, ol/geom/flat/interiorpoint,
    ol/geom/flat/center and ol/proj that the feature calls, with the
    arguments of the call sites.  They are pure: they return new arrays and
    leave their arguments alone.  [Math_sin] and [Math_cos] are the
    JavaScript functions; only their values at [0] matter here. *)
Class Engines : Type := {
  interpolatePoint :
    list num -> EndsItem -> EndsItem -> Z -> num -> list num;
  getInteriorPointOfArray :
    list num -> Z -> Ends -> Z -> list num -> Z -> list num;
  linearRingssCenter :
    list num -> Z -> Ends -> Z -> list num;
  getInteriorPointsOfMultiArray :
    list num -> Z -> Ends -> Z -> list num -> list num;
  projections : gmap string Projection;
  Math_sin : num -> num;
  Math_cos : num -> num;
  Math_sin_0 : Math_sin 0%num = 0%num;
  Math_cos_0 : Math_cos 0%num = num_of_Z 1
}.

(** Modelled from the spec: [get] of ol/proj.js, the "projection registry
    capable of resolving a projection-like identifier": an object is
    returned as it is, a code is looked up, [null] ([None]) when unknown. *)
Definition getProjection `{Engines} (projectionLike : ProjectionLike)
    : option Projection :=
  match projectionLike with
  | ProjObject p => Some p
  | ProjCode code => projections !! code
  end.

(** [compose] of ol/transform.js with the JavaScript [Math.sin] and
    [Math.cos]. *)
Definition composeTransform `{Engines} (transform : Transform)
    (dx1 dy1 sx sy angle dx2 dy2 : num) : Transform :=
  composeTransform_with (Math_sin angle) (Math_cos angle) transform
    dx1 dy1 sx sy dx2 dy2.

(** The fraction [0.5]. *)
Definition one_half : num := Fin (Q2Qc (1 # 2)).

(* ================================================================== *)
(** ** The methods of [RenderFeature] *)
(* ================================================================== *)

Section Methods.
Context `{Engines}.

(** [get(key)]: [this.properties_[key]], the property lookup of the
    properties object, own properties first and then its prototype
    chain. *)
Definition get (key : string) : Method JsValue :=
  properties ← field properties_;
  mret (js_get properties key).

(** [getExtent()] *)
Definition getExtent : Method Extent :=
  slot ← field extent_;
  match slot with
  | None =>
      type ← field type_;
      flatCoordinates ← field flatCoordinates_;
      let extent :=
        if decide (type = POINT)
        then createOrUpdateFromCoordinate flatCoordinates
        else createOrUpdateFromFlatCoordinates
               flatCoordinates 0 (alength flatCoordinates) 2 in
      assign (set_extent_ (Some extent));;
      mret extent
  | Some extent => mret extent
  end.

(** [getFlatInteriorPoint()] *)
Definition getFlatInteriorPoint : Method (list num) :=
  slot ← field flatInteriorPoints_;
  match slot with
  | None =>
      extent ← getExtent;
      let flatCenter := getCenter extent in
      flatCoordinates ← field flatCoordinates_;
      ends ← field ends_;
      let points :=
        getInteriorPointOfArray flatCoordinates 0 ends 2 flatCenter 0 in
      assign (set_flatInteriorPoints_ (Some points));;
      mret points
  | Some points => mret points
  end.

(** [getFlatInteriorPoints()] *)
Definition getFlatInteriorPoints : Method (list num) :=
  slot ← field flatInteriorPoints_;
  match slot with
  | None =>
      flatCoordinates ← field flatCoordinates_;
      ends ← field ends_;
      let flatCenters := linearRingssCenter flatCoordinates 0 ends 2 in
      let points :=
        getInteriorPointsOfMultiArray flatCoordinates 0 ends 2 flatCenters in
      assign (set_flatInteriorPoints_ (Some points));;
      mret points
  | Some points => mret points
  end.

(** [getFlatMidpoint()] *)
Definition getFlatMidpoint : Method (list num) :=
  slot ← field flatMidpoints_;
  match slot with
  | None =>
      flatCoordinates ← field flatCoordinates_;
      let midpoint :=
        interpolatePoint flatCoordinates (EndNumber 0)
          (EndNumber (alength flatCoordinates)) 2 one_half in
      assign (set_flatMidpoints_ (Some midpoint));;
      mret midpoint
  | Some midpoint => mret midpoint
  end.

(** One round of the loop of [getFlatMidpoints]: the state is the array
    under construction and [offset]. *)
Definition midpoints_step (flatCoordinates : list num)
    (st : list num * EndsItem) (end_ : EndsItem) : list num * EndsItem :=
  let '(flatMidpoints, offset) := st in
  let midpoint := interpolatePoint flatCoordinates offset end_ 2 one_half in
  (extend flatMidpoints midpoint, end_).

(** [getFlatMidpoints()].  The array assigned to the slot before the loop
    is the one the loop extends; nothing reads the slot in between, and the
    slot is written here once the array is complete. *)
Definition getFlatMidpoints : Method (list num) :=
  slot ← field flatMidpoints_;
  match slot with
  | None =>
      flatCoordinates ← field flatCoordinates_;
      ends ← field ends_;
      let flatMidpoints :=
        fst (fold_left (midpoints_step flatCoordinates)
                       (ends_items ends) ([], EndNumber 0)) in
      assign (set_flatMidpoints_ (Some flatMidpoints));;
      mret flatMidpoints
  | Some flatMidpoints => mret flatMidpoints
  end.

(** [getId()], [getOrientedFlatCoordinates()], [getGeometry()],
    [getProperties()], [getStride()], [getType()]. *)
Definition getId : Method FeatureId := field id_.

Definition getOrientedFlatCoordinates : Method (list num) :=
  field flatCoordinates_.

Definition getGeometry : Method RenderFeature := field id.

Definition getProperties : Method JsObject := field properties_.

Definition getStride : Method Z := mret 2.

Definition getType : Method GeometryType := field type_.

(** The functions assigned to the prototype after the class. *)
Definition getEnds : Method Ends := field ends_.
Definition getEndss : Method Ends := getEnds.
Definition getFlatCoordinates : Method (list num) := getOrientedFlatCoordinates.
Definition getSimplifiedGeometry : Method RenderFeature := getGeometry.
Definition getStyleFunction : Method unit := mret tt.

(** [transform(source, destination)].  [tmpTransform] is the matrix the
    module keeps; the call overwrites it and then applies it to the buffer
    in place.  [None] is the [TypeError] of calling [getExtent] on the
    [null] that an unknown projection code resolves to; nothing has been
    written by then. *)
Definition transform (source destination : ProjectionLike)
    (tmpTransform : Transform) (this : RenderFeature)
    : option (RenderFeature * Transform) :=
  match getProjection source with
  | None => None
  | Some source =>
      let pixelExtent := proj_extent source in
      let projectedExtent := proj_worldExtent source in
      let scale := (getHeight projectedExtent / getHeight pixelExtent)%num in
      let tmpTransform :=
        composeTransform tmpTransform
          (aget projectedExtent 0) (aget projectedExtent 3)
          scale (- scale)%num 0%num
          0%num 0%num in
      let flatCoordinates := flatCoordinates_ this in
      Some (set_flatCoordinates_
              (transform2D flatCoordinates 0 (alength flatCoordinates) 2
                           tmpTransform) this,
            tmpTransform)
  end.

(** The read accessors, and what a call of one returns. *)
Inductive Accessor : Type :=
| Get (key : string)
| GetExtent
| GetFlatInteriorPoint
| GetFlatInteriorPoints
| GetFlatMidpoint
| GetFlatMidpoints
| GetId
| GetOrientedFlatCoordinates
| GetFlatCoordinates
| GetGeometry
| GetSimplifiedGeometry
| GetProperties
| GetStride
| GetType
| GetEnds
| GetEndss
| GetStyleFunction.

Inductive Returned : Type :=
| RetValue (v : JsValue)
| RetNumbers (a : list num)
| RetId (i : FeatureId)
| RetFeature (f : RenderFeature)
| RetProperties (p : JsObject)
| RetStride (n : Z)
| RetType (t : GeometryType)
| RetEnds (e : Ends)
| RetUndefined.

Definition call (a : Accessor) : Method Returned :=
  match a with
  | Get key => RetValue <$> get key
  | GetExtent => RetNumbers <$> getExtent
  | GetFlatInteriorPoint => RetNumbers <$> getFlatInteriorPoint
  | GetFlatInteriorPoints => RetNumbers <$> getFlatInteriorPoints
  | GetFlatMidpoint => RetNumbers <$> getFlatMidpoint
  | GetFlatMidpoints => RetNumbers <$> getFlatMidpoints
  | GetId => RetId <$> getId
  | GetOrientedFlatCoordinates => RetNumbers <$> getOrientedFlatCoordinates
  | GetFlatCoordinates => RetNumbers <$> getFlatCoordinates
  | GetGeometry => RetFeature <$> getGeometry
  | GetSimplifiedGeometry => RetFeature <$> getSimplifiedGeometry
  | GetProperties => RetProperties <$> getProperties
  | GetStride => RetStride <$> getStride
  | GetType => RetType <$> getType
  | GetEnds => RetEnds <$> getEnds
  | GetEndss => RetEnds <$> getEndss
  | GetStyleFunction => (fun _ => RetUndefined) <$> getStyleFunction
  end.

(** A run of accessor calls, first to last. *)
Definition calls (l : list Accessor) (this : RenderFeature) : RenderFeature :=
  fold_left (fun this a => after (call a this)) l this.

End Methods.

(* ================================================================== *)
(** ** Vocabulary of the properties, and sample data *)
(* ================================================================== *)

(** The [(x, y)] pairs of a buffer read at stride 2; a last lone number is
    paired with the [undefined] ([NaN]) read after it. *)
Fixpoint coordinate_pairs (flatCoordinates : list num) : list (num * num) :=
  match flatCoordinates with
  | [] => []
  | [x] => [(x, NaN)]
  | x :: y :: rest => (x, y) :: coordinate_pairs rest
  end.

(** The buffer with [g] applied to every pair. *)
Fixpoint map_pairs (g : num * num -> num * num) (flatCoordinates : list num)
    : list num :=
  match flatCoordinates with
  | [] => []
  | [x] => let '(x', y') := g (x, NaN) in [x'; y']
  | x :: y :: rest => let '(x', y') := g (x, y) in x' :: y' :: map_pairs g rest
  end.

(** The extent of the feature's type and present buffer, as [getExtent]
    computes it when it has to. *)
Definition extent_of (this : RenderFeature) : Extent :=
  if decide (type_ this = POINT)
  then createOrUpdateFromCoordinate (flatCoordinates_ this)
  else createOrUpdateFromFlatCoordinates
         (flatCoordinates_ this) 0 (alength (flatCoordinates_ this)) 2.

(** The extent slot is current: unset, or holding the extent of the present
    buffer. *)
Definition extent_current (this : RenderFeature) : Prop :=
  extent_ this = None \/ extent_ this = Some (extent_of this).

(** The slices [[offset, end)] of a flat ends descriptor: [offset] is [0]
    for the first ring and the previous [end] after that. *)
Definition ring_slices (ends : list Z) : list (Z * Z) :=
  zip (0 :: ends) ends.

(** What each accessor computes when its slot is unset. *)
Definition flatInteriorPoint_of `{Engines} (this : RenderFeature) : list num :=
  getInteriorPointOfArray (flatCoordinates_ this) 0 (ends_ this) 2
    (getCenter (result (getExtent this))) 0.

Definition flatInteriorPoints_of `{Engines} (this : RenderFeature) : list num :=
  getInteriorPointsOfMultiArray (flatCoordinates_ this) 0 (ends_ this) 2
    (linearRingssCenter (flatCoordinates_ this) 0 (ends_ this) 2).

Definition flatMidpoint_of `{Engines} (this : RenderFeature) : list num :=
  interpolatePoint (flatCoordinates_ this) (EndNumber 0)
    (EndNumber (alength (flatCoordinates_ this))) 2 one_half.

Definition flatMidpoints_of `{Engines} (this : RenderFeature) : list num :=
  fst (fold_left (midpoints_step (flatCoordinates_ this))
                 (ends_items (ends_ this)) ([], EndNumber 0)).

(** The midpoint slot is current for [getFlatMidpoints]: unset, or holding
    the per-ring midpoints of the present buffer. *)
Definition midpoints_current `{Engines} (this : RenderFeature) : Prop :=
  flatMidpoints_ this = None
  \/ flatMidpoints_ this = Some (flatMidpoints_of this).

(** The midpoint of one slice [[offset, end)] of the buffer. *)
Definition slice_midpoint `{Engines} (flatCoordinates : list num)
    (slice : Z * Z) : list num :=
  interpolatePoint flatCoordinates (EndNumber (fst slice))
    (EndNumber (snd slice)) 2 one_half.

(** The scale the feature computes from a projection, and the image of a
    pair under the matrix it composes from it. *)
Definition scale_of (p : Projection) : num :=
  (getHeight (proj_worldExtent p) / getHeight (proj_extent p))%num.

Definition pixel_to_world `{Engines} (p : Projection) : num * num -> num * num :=
  apply_transform
    (composeTransform createTransform
       (aget (proj_worldExtent p) 0) (aget (proj_worldExtent p) 3)
       (scale_of p) (- scale_of p)%num 0%num
       0%num 0%num).

(** The affine map [x' = s * x + minX], [y' = - s * y + maxY] onto the
    extent [world]. *)
Definition affine_onto (world : Extent) (s : num) (p : num * num) : num * num :=
  ( (s * fst p + aget world 0)%num, (- s * snd p + aget world 3)%num ).

(** The map with the scale and the corner taken from the world extent of
    the destination projection and the pixel extent of the source. *)
Definition affine_by_destination (source destination : Projection)
    : num * num -> num * num :=
  affine_onto (proj_worldExtent destination)
    (getHeight (proj_worldExtent destination) / getHeight (proj_extent source))%num.

(** The map with the scale and the corner taken from the source projection
    alone. *)
Definition affine_by_source (source : Projection) : num * num -> num * num :=
  affine_onto (proj_worldExtent source) (scale_of source).

(** The three slots of the derived-geometry cache. *)
Inductive Slot : Type :=
| ExtentSlot
| InteriorPointsSlot
| MidpointsSlot.

#[global] Instance Slot_eq_dec : EqDecision Slot.
Proof. solve_decision. Defined.

Definition slot_value (s : Slot) (this : RenderFeature) : option (list num) :=
  match s with
  | ExtentSlot => extent_ this
  | InteriorPointsSlot => flatInteriorPoints_ this
  | MidpointsSlot => flatMidpoints_ this
  end.

(** The slot an accessor answers from, if it has one. *)
Definition own_slot (a : Accessor) : option Slot :=
  match a with
  | GetExtent => Some ExtentSlot
  | GetFlatInteriorPoint | GetFlatInteriorPoints => Some InteriorPointsSlot
  | GetFlatMidpoint | GetFlatMidpoints => Some MidpointsSlot
  | _ => None
  end.

(** The slots an accessor may fill: its own, and for [getFlatInteriorPoint]
    also the extent slot, through its call of [getExtent]. *)
Definition filled_slots (a : Accessor) : list Slot :=
  match a with
  | GetFlatInteriorPoint => [InteriorPointsSlot; ExtentSlot]
  | _ => option_list (own_slot a)
  end.

(** The fields that are no cache slot. *)
Definition same_data (this this' : RenderFeature) : Prop :=
  flatCoordinates_ this' = flatCoordinates_ this
  /\ ends_ this' = ends_ this
  /\ properties_ this' = properties_ this
  /\ id_ this' = id_ this
  /\ type_ this' = type_ this.

Definition same_cache (this this' : RenderFeature) : Prop :=
  forall s, slot_value s this' = slot_value s this.

(** Equality of numbers and of arrays of numbers as a boolean, for runs on
    concrete data. *)
Definition num_eqb (a b : num) : bool :=
  match a, b with
  | Fin p, Fin q => Qeq_bool p q
  | PosInf, PosInf | NegInf, NegInf | NaN, NaN => true
  | _, _ => false
  end.

Fixpoint nums_eqb (a b : list num) : bool :=
  match a, b with
  | [], [] => true
  | x :: a', y :: b' => num_eqb x y && nums_eqb a' b'
  | _, _ => false
  end.

(** Sample engines for runs on concrete features.  Interpolation is exact
    on a slice of one point (the point) and of two points (the point at
    [fraction] between them); on any other slice it answers [[NaN, NaN]],
    the square roots of the path lengths being outside the rationals.  The
    interior-point functions answer the seed centre(s) they are given, the
    ring centres are empty, no projection code is registered, and [sin],
    [cos] are those of the angle [0]. *)
Definition sample_interpolatePoint (flatCoordinates : list num)
    (offset end_ : EndsItem) (stride : Z) (fraction : num) : list num :=
  match offset, end_ with
  | EndNumber o, EndNumber e =>
      if decide (e - o = stride) then
        [aget flatCoordinates o; aget flatCoordinates (o + 1)]
      else if decide (e - o = 2 * stride) then
        [ ((num_of_Z 1 - fraction) * aget flatCoordinates o
           + fraction * aget flatCoordinates (o + stride))%num;
          ((num_of_Z 1 - fraction) * aget flatCoordinates (o + 1)
           + fraction * aget flatCoordinates (o + stride + 1))%num ]
      else [NaN; NaN]
  | _, _ => [NaN; NaN]
  end.

Definition sample_engines : Engines := {|
  interpolatePoint := sample_interpolatePoint;
  getInteriorPointOfArray := fun _ _ _ _ flatCenters _ => flatCenters;
  linearRingssCenter := fun _ _ _ _ => [];
  getInteriorPointsOfMultiArray := fun _ _ _ _ flatCenters => flatCenters;
  projections := ∅;
  Math_sin := fun _ => 0%num;
  Math_cos := fun _ => num_of_Z 1;
  Math_sin_0 := eq_refl;
  Math_cos_0 := eq_refl
|}.

(** Sample features and projections. *)
Definition nums (l : list Z) : list num := map num_of_Z l.

Definition sample_line : RenderFeature :=
  new_RenderFeature LINE_STRING (nums [0; 0; 1; 1]) (FlatEnds [4])
    (object_literal (<["layer" := JsString "roads"]> ∅))
    (IdNumber (num_of_Z 7)).

Definition sample_tile : Projection :=
  {| proj_extent := nums [0; 0; 4; 4];
     proj_worldExtent := nums [0; 0; 8; 8] |}.

Definition sample_world : Projection :=
  {| proj_extent := nums [0; 0; 16; 16];
     proj_worldExtent := nums [0; 0; 16; 16] |}.

Definition sample_tile_off_origin : Projection :=
  {| proj_extent := nums [1; 1; 5; 5];
     proj_worldExtent := nums [0; 0; 8; 8] |}.

(** A line with a [NaN] abscissa, a line with a buffer of odd count, and
    two rings of one point each. *)
Definition sample_line_nan : RenderFeature :=
  new_RenderFeature LINE_STRING [NaN; num_of_Z 0; num_of_Z 1; num_of_Z 1]
    (FlatEnds [4]) (object_literal ∅) IdUndefined.

Definition sample_line_odd : RenderFeature :=
  new_RenderFeature LINE_STRING (nums [0; 0; 1]) (FlatEnds [3])
    (object_literal ∅) IdUndefined.

Definition sample_two_points : RenderFeature :=
  new_RenderFeature MULTI_POINT (nums [0; 0; 10; 0]) (FlatEnds [2; 4])
    (object_literal ∅) IdUndefined.

Definition sample_tile_flat : Projection :=
  {| proj_extent := nums [0; 0; 4; 0];
     proj_worldExtent := nums [0; 0; 8; 8] |}.

Definition sample_origin : RenderFeature :=
  new_RenderFeature POINT (nums [0; 0]) (FlatEnds [2]) (object_literal ∅)
    IdUndefined.

Definition sample_point : RenderFeature :=
  new_RenderFeature POINT (nums [3; 5]) (FlatEnds [2]) (object_literal ∅)
    IdUndefined.

Definition sample_corner : RenderFeature :=
  new_RenderFeature POINT (nums [1; 1]) (FlatEnds [2]) (object_literal ∅)
    IdUndefined.

Definition sample_lines : RenderFeature :=
  new_RenderFeature MULTI_LINE_STRING (nums [0; 0; 10; 0; 0; 0; 0; 4])
    (FlatEnds [4; 8]) (object_literal ∅) (IdString "two-lines").

#[global] Instance Accessor_eq_dec : EqDecision Accessor.
Proof. solve_decision. Defined.

(** What an accessor with a slot computes when its slot is unset. *)
Definition computed `{Engines} (a : Accessor) (this : RenderFeature) : list num :=
  match a with
  | GetExtent => extent_of this
  | GetFlatInteriorPoint => flatInteriorPoint_of this
  | GetFlatInteriorPoints => flatInteriorPoints_of this
  | GetFlatMidpoint => flatMidpoint_of this
  | GetFlatMidpoints => flatMidpoints_of this
  | _ => []
  end.

(** The slices the loop of [getFlatMidpoints] hands to the interpolation,
    whatever the shape of the ends: the first offset is the number [0],
    each later offset is the element before, as it is. *)
Definition item_slices (items : list EndsItem) : list (EndsItem * EndsItem) :=
  zip (EndNumber 0 :: items) items.

Definition item_midpoint `{Engines} (flatCoordinates : list num)
    (slice : EndsItem * EndsItem) : list num :=
  interpolatePoint flatCoordinates (fst slice) (snd slice) 2 one_half.

(** A method call on a feature: a read accessor, or [transform]. *)
Inductive Operation : Type :=
| ReadCall (a : Accessor)
| TransformCall (source destination : ProjectionLike).

(** One call, on the feature and the module's matrix; [None] when the call
    throws. *)
Definition step_op `{Engines} (st : RenderFeature * Transform) (op : Operation)
    : option (RenderFeature * Transform) :=
  match op with
  | ReadCall a => Some (after (call a (fst st)), snd st)
  | TransformCall source destination =>
      transform source destination (snd st) (fst st)
  end.

(** A run of calls, first to last; a throw ends it. *)
Fixpoint run `{Engines} (ops : list Operation) (st : RenderFeature * Transform)
    : option (RenderFeature * Transform) :=
  match ops with
  | [] => Some st
  | op :: ops =>
      match step_op st op with
      | Some st' => run ops st'
      | None => None
      end
  end.

(** The source of every [transform] in the run resolves. *)
Definition resolvable `{Engines} (op : Operation) : Prop :=
  match op with
  | ReadCall _ => True
  | TransformCall source _ => is_Some (getProjection source)
  end.

(** The two coordinate maps of a transform of finite scale [s] onto a world
    extent of left [minX] and top [maxY]. *)
Definition scale_x (s minX : Qc) (x : Qc) : Qc := (s * x + minX)%Qc.
Definition flip_y (s maxY : Qc) (y : Qc) : Qc := (- s * y + maxY)%Qc.

(** A buffer of rationals with a map on each coordinate of every pair. *)
Fixpoint map_xy (fx fy : Qc -> Qc) (qs : list Qc) : list Qc :=
  match qs with
  | x :: y :: rest => fx x :: fy y :: map_xy fx fy rest
  | _ => qs
  end.

(** The x coordinates and the y coordinates of a buffer of rationals. *)
Fixpoint xs_of (qs : list Qc) : list Qc :=
  match qs with
  | x :: _ :: rest => x :: xs_of rest
  | _ => []
  end.

Fixpoint ys_of (qs : list Qc) : list Qc :=
  match qs with
  | _ :: y :: rest => y :: ys_of rest
  | _ => []
  end.

(** A map on the rationals as a map on numbers; [NaN] off the finite
    values. *)
Definition lift (f : Qc -> Qc) (a : num) : num :=
  match a with
  | Fin q => Fin (f q)
  | _ => NaN
  end.

(** What one call keeps: the fields outside the cache and the buffer, every
    slot that is set, and the length of a buffer of even count. *)
Definition kept (this this' : RenderFeature) : Prop :=
  ends_ this' = ends_ this
  /\ properties_ this' = properties_ this
  /\ id_ this' = id_ this
  /\ type_ this' = type_ this
  /\ (forall s v, slot_value s this = Some v -> slot_value s this' = Some v)
  /\ (Nat.Even (length (flatCoordinates_ this)) ->
      length (flatCoordinates_ this') = length (flatCoordinates_ this)).

Definition sample_no_ends : RenderFeature :=
  new_RenderFeature MULTI_POLYGON (nums [0; 0; 4; 0; 4; 4]) (NestedEnds [])
    (object_literal ∅) IdUndefined.

Definition sample_run : list Operation :=
  [ ReadCall GetExtent;
    TransformCall (ProjObject sample_tile) (ProjObject sample_world);
    ReadCall GetFlatMidpoints;
    ReadCall (Get "layer");
    TransformCall (ProjObject sample_tile) (ProjObject sample_world);
    ReadCall GetFlatInteriorPoint ].

(** Unfolding of a method body down to the receiver. *)
Ltac run_method :=
  unfold get, getExtent, getFlatInteriorPoint, getFlatInteriorPoints,
    getFlatMidpoint, getFlatMidpoints, getId, getOrientedFlatCoordinates,
    getFlatCoordinates, getGeometry, getSimplifiedGeometry, getProperties,
    getStride, getType, getEnds, getEndss, getStyleFunction,
    mbind, Method_bind, mret, Method_ret, fmap, Method_fmap, field, assign,
    result, after in *;
  cbn beta iota zeta in *.

(* ================================================================== *)
(** ** Numbers: equality test, order, minimum and maximum *)
(* ================================================================== *)

#[local] Arguments Qccompare : simpl never.

Lemma num_eqb_eq (a b : num) : num_eqb a b = true <-> a = b.
Proof.
  destruct a as [p| | |], b as [q| | |]; simpl;
    try (split; [discriminate | intros [=]]); try tauto.
  rewrite Qeq_bool_iff. split.
  - intros Hq. f_equal. apply Qc_is_canon, Hq.
  - intros [= ->]. reflexivity.
Qed.

Lemma nums_eqb_eq (a b : list num) : nums_eqb a b = true <-> a = b.
Proof.
  revert b. induction a as [|x a IH]; intros [|y b]; simpl;
    try (split; [discriminate | intros [=]]); try tauto.
  rewrite andb_true_iff, num_eqb_eq, IH. split.
  - intros [-> ->]. reflexivity.
  - intros [= -> ->]. split; reflexivity.
Qed.

Lemma nums_eqb_neq (a b : list num) : nums_eqb a b = false -> a <> b.
Proof.
  intros Hf Heq. apply nums_eqb_eq in Heq. congruence.
Qed.

Lemma Qc_sign_Eq (q : Qc) : Qc_sign q = Eq <-> q = 0%Qc.
Proof. unfold Qc_sign. symmetry. apply Qceq_alt. Qed.

Lemma nleb_Fin (p q : Qc) : nleb (Fin p) (Fin q) = true <-> (p <= q)%Qc.
Proof.
  simpl. rewrite Qcle_alt.
  destruct (p ?= q)%Qc; split; intros; congruence.
Qed.

Lemma nle_refl (a : num) : a <> NaN -> (a <= a)%num.
Proof.
  destruct a as [p| | |]; intros Ha; try reflexivity; [|congruence].
  apply nleb_Fin, Qcle_refl.
Qed.

Lemma nle_trans (a b c : num) : (a <= b)%num -> (b <= c)%num -> (a <= c)%num.
Proof.
  unfold nle.
  destruct a as [p| | |], b as [q| | |], c as [r| | |];
    try discriminate; try reflexivity.
  rewrite !nleb_Fin. apply Qcle_trans.
Qed.

Lemma nleb_total (a b : num) :
  a <> NaN -> b <> NaN -> nleb a b = false -> nleb b a = true.
Proof.
  destruct a as [p| | |], b as [q| | |]; intros Ha Hb;
    try congruence; try reflexivity; try discriminate.
  simpl. destruct (p ?= q)%Qc eqn:Hc; try discriminate.
  intros _.
  assert (Hgt : (q < p)%Qc) by (apply (proj2 (Qcgt_alt p q)), Hc).
  rewrite (proj1 (Qclt_alt q p) Hgt). reflexivity.
Qed.

Lemma Math_min_not_NaN (a b : num) : a <> NaN -> b <> NaN -> Math_min a b <> NaN.
Proof.
  destruct a, b; intros Ha Hb; try congruence; unfold Math_min;
    destruct (nleb _ _); congruence.
Qed.

Lemma Math_max_not_NaN (a b : num) : a <> NaN -> b <> NaN -> Math_max a b <> NaN.
Proof.
  destruct a, b; intros Ha Hb; try congruence; unfold Math_max;
    destruct (nleb _ _); congruence.
Qed.

Lemma Math_min_cases (a b : num) :
  a <> NaN -> b <> NaN ->
  (Math_min a b = a /\ (a <= b)%num) \/ (Math_min a b = b /\ (b <= a)%num).
Proof.
  intros Ha Hb.
  assert (Hm : Math_min a b = if nleb a b then a else b)
    by (destruct a, b; congruence || reflexivity).
  rewrite Hm. destruct (nleb a b) eqn:Hle.
  - left. split; [reflexivity | exact Hle].
  - right. split; [reflexivity | apply nleb_total; assumption].
Qed.

Lemma Math_max_cases (a b : num) :
  a <> NaN -> b <> NaN ->
  (Math_max a b = a /\ (b <= a)%num) \/ (Math_max a b = b /\ (a <= b)%num).
Proof.
  intros Ha Hb.
  assert (Hm : Math_max a b = if nleb a b then b else a)
    by (destruct a, b; congruence || reflexivity).
  rewrite Hm. destruct (nleb a b) eqn:Hle.
  - right. split; [reflexivity | exact Hle].
  - left. split; [reflexivity | apply nleb_total; assumption].
Qed.

(* ================================================================== *)
(** ** Arrays and counted loops *)
(* ================================================================== *)

Lemma pair_ind (P : list num -> Prop) :
  P [] -> (forall x, P [x]) -> (forall x y l, P l -> P (x :: y :: l)) ->
  forall l, P l.
Proof.
  intros Hnil Hone Hstep.
  assert (Hboth : forall l, P l /\ forall x, P (x :: l)).
  { induction l as [|y l [IH1 IH2]].
    - split; [exact Hnil | exact Hone].
    - split; [apply IH2 | intros x; apply Hstep, IH1]. }
  intros l. apply Hboth.
Qed.

Lemma alength_app (a b : list num) : alength (a ++ b) = alength a + alength b.
Proof. unfold alength. rewrite length_app. lia. Qed.

Lemma alength_nonneg (a : list num) : 0 <= alength a.
Proof. unfold alength. lia. Qed.

Lemma aget_app_r (pre l : list num) (k : Z) :
  0 <= k -> aget (pre ++ l) (alength pre + k) = aget l k.
Proof.
  intros Hk. unfold aget, alength.
  destruct (Z.ltb_spec (Z.of_nat (length pre) + k) 0) as [?|_]; [lia|].
  destruct (Z.ltb_spec k 0) as [?|_]; [lia|].
  rewrite lookup_app_r by lia.
  do 2 f_equal. lia.
Qed.

Lemma aget_nil (k : Z) : aget [] k = NaN.
Proof. unfold aget. destruct (k <? 0); reflexivity. Qed.

Lemma aget_0 (x : num) (l : list num) : aget (x :: l) 0 = x.
Proof. reflexivity. Qed.

Lemma aget_1 (x y : num) (l : list num) : aget (x :: y :: l) 1 = y.
Proof. reflexivity. Qed.

Lemma aget_1_single (x : num) : aget [x] 1 = NaN.
Proof. reflexivity. Qed.

Lemma aset_app_r (pre l : list num) (k : Z) (v : num) :
  0 <= k -> aset (pre ++ l) (alength pre + k) v = pre ++ aset l k v.
Proof.
  intros Hk. unfold aset, alength.
  replace (Z.to_nat (Z.of_nat (length pre) + k))
    with (length pre + Z.to_nat k)%nat by lia.
  rewrite length_app.
  destruct (Nat.ltb_spec (Z.to_nat k) (length l)) as [Hlt|Hge].
  - destruct (Nat.ltb_spec (length pre + Z.to_nat k) (length pre + length l));
      [|lia].
    apply insert_app_r.
  - destruct (Nat.ltb_spec (length pre + Z.to_nat k) (length pre + length l));
      [lia|].
    replace (length pre + Z.to_nat k - (length pre + length l))%nat
      with (Z.to_nat k - length l)%nat by lia.
    rewrite <- app_assoc. reflexivity.
Qed.

Lemma loop_indices_nil (offset end_ stride : Z) :
  end_ <= offset -> 0 < stride -> loop_indices offset end_ stride = [].
Proof.
  intros Hle Hs. unfold loop_indices.
  destruct (Z.leb_spec stride 0) as [?|_]; [reflexivity|].
  assert (Hq : (end_ - offset + stride - 1) / stride < 1)
    by (apply Z.div_lt_upper_bound; lia).
  replace (Z.to_nat ((end_ - offset + stride - 1) / stride)) with 0%nat by lia.
  reflexivity.
Qed.

Lemma loop_indices_cons (offset end_ stride : Z) :
  offset < end_ -> 0 < stride ->
  loop_indices offset end_ stride
  = offset :: loop_indices (offset + stride) end_ stride.
Proof.
  intros Hlt Hs. unfold loop_indices.
  destruct (Z.leb_spec stride 0) as [?|_]; [lia|].
  replace (end_ - offset + stride - 1)
    with ((end_ - (offset + stride) + stride - 1) + 1 * stride) by lia.
  rewrite Z.div_add by lia.
  assert (Hq : 0 <= (end_ - (offset + stride) + stride - 1) / stride)
    by (apply Z.div_pos; lia).
  set (q := (end_ - (offset + stride) + stride - 1) / stride) in *.
  replace (Z.to_nat (q + 1)) with (S (Z.to_nat q)) by lia.
  simpl. f_equal; [lia|].
  rewrite <- seq_shift, map_map.
  apply map_ext. intros k. lia.
Qed.

(** The scan of a whole buffer at stride 2 visits its coordinate pairs. *)
Lemma loop_reads_pairs (pre l : list num) :
  map (fun j => (aget (pre ++ l) j, aget (pre ++ l) (j + 1)))
      (loop_indices (alength pre) (alength pre + alength l) 2)
  = coordinate_pairs l.
Proof.
  revert pre. induction l as [|x|x y l IH] using pair_ind; intros pre.
  - rewrite loop_indices_nil by (unfold alength; simpl; lia). reflexivity.
  - rewrite loop_indices_cons by (unfold alength; simpl; lia).
    rewrite loop_indices_nil by (unfold alength; simpl; lia).
    simpl. f_equal. f_equal.
    + rewrite <- (Z.add_0_r (alength pre)). apply aget_app_r. lia.
    + rewrite aget_app_r by lia. reflexivity.
  - rewrite loop_indices_cons by (unfold alength; simpl; lia).
    simpl. f_equal.
    + f_equal.
      * rewrite <- (Z.add_0_r (alength pre)). apply aget_app_r. lia.
      * rewrite aget_app_r by lia. reflexivity.
    + specialize (IH (pre ++ [x; y])).
      rewrite <- app_assoc in IH. simpl in IH.
      rewrite alength_app in IH.
      replace (alength pre + alength [x; y] + alength l)
        with (alength pre + alength (x :: y :: l)) in IH
        by (unfold alength; simpl; lia).
      exact IH.
Qed.

Lemma scan_pairs {S : Type} (step : S -> num -> num -> S)
    (flatCoordinates : list num) (s : S) :
  fold_left (fun s j => step s (aget flatCoordinates j)
                                (aget flatCoordinates (j + 1)))
            (loop_indices 0 (alength flatCoordinates) 2) s
  = fold_left (fun s p => step s (fst p) (snd p))
              (coordinate_pairs flatCoordinates) s.
Proof.
  rewrite <- (loop_reads_pairs [] flatCoordinates).
  simpl. change (alength []) with 0. rewrite Z.add_0_l.
  generalize (loop_indices 0 (alength flatCoordinates) 2). intros js.
  revert s. induction js as [|j js IH]; intros s; simpl; [reflexivity|].
  apply IH.
Qed.

(* ================================================================== *)
(** ** The extent calculator *)
(* ================================================================== *)

Lemma extendXY_box (a b c d x y : num) :
  extendXY [a; b; c; d] x y
  = [Math_min a x; Math_min b y; Math_max c x; Math_max d y].
Proof. reflexivity. Qed.

(** The four bounds run independently of one another. *)
Lemma extend_pairs_independent (ps : list (num * num)) (a b c d : num) :
  fold_left (fun e p => extendXY e (fst p) (snd p)) ps [a; b; c; d]
  = [ fold_left Math_min (map fst ps) a;
      fold_left Math_min (map snd ps) b;
      fold_left Math_max (map fst ps) c;
      fold_left Math_max (map snd ps) d ].
Proof.
  revert a b c d. induction ps as [|[x y] ps IH]; intros a b c d.
  - reflexivity.
  - simpl fold_left at 1. rewrite extendXY_box, IH. reflexivity.
Qed.

Lemma createOrUpdateFromFlatCoordinates_whole (flatCoordinates : list num) :
  createOrUpdateFromFlatCoordinates
    flatCoordinates 0 (alength flatCoordinates) 2
  = [ fold_left Math_min (map fst (coordinate_pairs flatCoordinates)) PosInf;
      fold_left Math_min (map snd (coordinate_pairs flatCoordinates)) PosInf;
      fold_left Math_max (map fst (coordinate_pairs flatCoordinates)) NegInf;
      fold_left Math_max (map snd (coordinate_pairs flatCoordinates)) NegInf ].
Proof.
  unfold createOrUpdateFromFlatCoordinates, extendFlatCoordinates.
  rewrite (scan_pairs extendXY).
  apply extend_pairs_independent.
Qed.

(** A running minimum is a lower bound of what it has seen and is one of
    the values seen, or the start value. *)
Lemma running_min (xs : list num) (a : num) :
  a <> NaN -> Forall (fun v => v <> NaN) xs ->
  let m := fold_left Math_min xs a in
  m <> NaN /\ (m <= a)%num /\ Forall (fun x => (m <= x)%num) xs
  /\ (m = a \/ m ∈ xs).
Proof.
  intros Ha Hxs. revert a Ha.
  induction Hxs as [|x xs Hx Hxs IH]; intros a Ha; simpl.
  - repeat split; [exact Ha | apply nle_refl, Ha | constructor | left; reflexivity].
  - destruct (IH (Math_min a x) (Math_min_not_NaN a x Ha Hx))
      as (Hm & Hle & Hall & Hin).
    destruct (Math_min_cases a x Ha Hx) as [[Heq Hax]|[Heq Hxa]];
      rewrite Heq in *.
    + repeat split; [exact Hm | exact Hle | | ].
      * constructor; [eapply nle_trans; eassumption | exact Hall].
      * destruct Hin as [->|Hin]; [left; reflexivity | right; right; exact Hin].
    + repeat split; [exact Hm | eapply nle_trans; eassumption | | ].
      * constructor; [exact Hle | exact Hall].
      * destruct Hin as [->|Hin]; [right; left | right; right; exact Hin].
Qed.

Lemma running_max (xs : list num) (a : num) :
  a <> NaN -> Forall (fun v => v <> NaN) xs ->
  let m := fold_left Math_max xs a in
  m <> NaN /\ (a <= m)%num /\ Forall (fun x => (x <= m)%num) xs
  /\ (m = a \/ m ∈ xs).
Proof.
  intros Ha Hxs. revert a Ha.
  induction Hxs as [|x xs Hx Hxs IH]; intros a Ha; simpl.
  - repeat split; [exact Ha | apply nle_refl, Ha | constructor | left; reflexivity].
  - destruct (IH (Math_max a x) (Math_max_not_NaN a x Ha Hx))
      as (Hm & Hle & Hall & Hin).
    destruct (Math_max_cases a x Ha Hx) as [[Heq Hxa]|[Heq Hax]];
      rewrite Heq in *.
    + repeat split; [exact Hm | exact Hle | | ].
      * constructor; [eapply nle_trans; eassumption | exact Hall].
      * destruct Hin as [->|Hin]; [left; reflexivity | right; right; exact Hin].
    + repeat split; [exact Hm | eapply nle_trans; eassumption | | ].
      * constructor; [exact Hle | exact Hall].
      * destruct Hin as [->|Hin]; [right; left | right; right; exact Hin].
Qed.

Lemma PosInf_le (x : num) : (PosInf <= x)%num -> x = PosInf.
Proof. destruct x; intros Hle; try discriminate; reflexivity. Qed.

Lemma le_NegInf (x : num) : (x <= NegInf)%num -> x = NegInf.
Proof. destruct x; intros Hle; try discriminate; reflexivity. Qed.

(** Over a non-empty run the minimum from [+Infinity] and the maximum from
    [-Infinity] are attained. *)
Lemma running_min_attained (xs : list num) :
  xs <> [] -> Forall (fun v => v <> NaN) xs ->
  fold_left Math_min xs PosInf ∈ xs.
Proof.
  intros Hne Hxs.
  destruct (running_min xs PosInf) as (_ & _ & Hall & [Heq|Hin]);
    [discriminate | exact Hxs | | exact Hin].
  destruct xs as [|x xs]; [contradiction|].
  rewrite Heq in *. apply Forall_cons in Hall as [Hx _].
  apply PosInf_le in Hx. subst x. left.
Qed.

Lemma running_max_attained (xs : list num) :
  xs <> [] -> Forall (fun v => v <> NaN) xs ->
  fold_left Math_max xs NegInf ∈ xs.
Proof.
  intros Hne Hxs.
  destruct (running_max xs NegInf) as (_ & _ & Hall & [Heq|Hin]);
    [discriminate | exact Hxs | | exact Hin].
  destruct xs as [|x xs]; [contradiction|].
  rewrite Heq in *. apply Forall_cons in Hall as [Hx _].
  apply le_NegInf in Hx. subst x. left.
Qed.

(** In a buffer of even length without [NaN] no pair holds a [NaN]. *)
Lemma coordinate_pairs_numbers (flatCoordinates : list num) :
  Nat.Even (length flatCoordinates) ->
  Forall (fun v => v <> NaN) flatCoordinates ->
  Forall (fun v => v <> NaN) (map fst (coordinate_pairs flatCoordinates))
  /\ Forall (fun v => v <> NaN) (map snd (coordinate_pairs flatCoordinates)).
Proof.
  induction flatCoordinates as [|x|x y l IH] using pair_ind; intros Hev Hall.
  - split; constructor.
  - destruct Hev as [k Hk]. simpl in Hk. lia.
  - apply Forall_cons in Hall as [Hx Hall].
    apply Forall_cons in Hall as [Hy Hall].
    destruct IH as [IHx IHy]; [|exact Hall|].
    + destruct Hev as [k Hk]. simpl in Hk. exists (k - 1)%nat. lia.
    + simpl. split; constructor; assumption.
Qed.

Lemma elem_of_map_fst (ps : list (num * num)) (v : num) :
  v ∈ map fst ps -> exists y, (v, y) ∈ ps.
Proof.
  intros Hin. apply list_elem_of_fmap in Hin as ([x y] & -> & Hp).
  exists y. exact Hp.
Qed.

Lemma elem_of_map_snd (ps : list (num * num)) (v : num) :
  v ∈ map snd ps -> exists x, (x, v) ∈ ps.
Proof.
  intros Hin. apply list_elem_of_fmap in Hin as ([x y] & -> & Hp).
  exists x. exact Hp.
Qed.

(* ================================================================== *)
(** ** The lazy cache *)
(* ================================================================== *)

Section Cache.
Context `{E : Engines}.

Lemma getExtent_set (this : RenderFeature) (e : Extent) :
  extent_ this = Some e -> getExtent this = (e, this).
Proof. intros Hs. run_method. rewrite Hs. reflexivity. Qed.

Lemma getExtent_unset (this : RenderFeature) :
  extent_ this = None ->
  getExtent this = (extent_of this, set_extent_ (Some (extent_of this)) this).
Proof. intros Hs. run_method. rewrite Hs. reflexivity. Qed.

Lemma getFlatInteriorPoint_set (this : RenderFeature) (v : list num) :
  flatInteriorPoints_ this = Some v -> getFlatInteriorPoint this = (v, this).
Proof. intros Hs. run_method. rewrite Hs. reflexivity. Qed.

Lemma getFlatInteriorPoint_unset (this : RenderFeature) :
  flatInteriorPoints_ this = None ->
  getFlatInteriorPoint this
  = (flatInteriorPoint_of this,
     set_flatInteriorPoints_ (Some (flatInteriorPoint_of this))
       (after (getExtent this))).
Proof.
  intros Hs.
  unfold flatInteriorPoint_of, getFlatInteriorPoint, mbind, Method_bind,
    field, assign, mret, Method_ret, result, after.
  cbn beta iota zeta. rewrite Hs.
  destruct (extent_ this) as [e|] eqn:He.
  - rewrite (getExtent_set this e He). reflexivity.
  - rewrite (getExtent_unset this He). reflexivity.
Qed.

Lemma getFlatInteriorPoints_set (this : RenderFeature) (v : list num) :
  flatInteriorPoints_ this = Some v -> getFlatInteriorPoints this = (v, this).
Proof. intros Hs. run_method. rewrite Hs. reflexivity. Qed.

Lemma getFlatInteriorPoints_unset (this : RenderFeature) :
  flatInteriorPoints_ this = None ->
  getFlatInteriorPoints this
  = (flatInteriorPoints_of this,
     set_flatInteriorPoints_ (Some (flatInteriorPoints_of this)) this).
Proof. intros Hs. run_method. rewrite Hs. reflexivity. Qed.

Lemma getFlatMidpoint_set (this : RenderFeature) (v : list num) :
  flatMidpoints_ this = Some v -> getFlatMidpoint this = (v, this).
Proof. intros Hs. run_method. rewrite Hs. reflexivity. Qed.

Lemma getFlatMidpoint_unset (this : RenderFeature) :
  flatMidpoints_ this = None ->
  getFlatMidpoint this
  = (flatMidpoint_of this,
     set_flatMidpoints_ (Some (flatMidpoint_of this)) this).
Proof. intros Hs. run_method. rewrite Hs. reflexivity. Qed.

Lemma getFlatMidpoints_set (this : RenderFeature) (v : list num) :
  flatMidpoints_ this = Some v -> getFlatMidpoints this = (v, this).
Proof. intros Hs. run_method. rewrite Hs. reflexivity. Qed.

Lemma getFlatMidpoints_unset (this : RenderFeature) :
  flatMidpoints_ this = None ->
  getFlatMidpoints this
  = (flatMidpoints_of this,
     set_flatMidpoints_ (Some (flatMidpoints_of this)) this).
Proof. intros Hs. run_method. rewrite Hs. reflexivity. Qed.

(** After a call the slot of the accessor holds the value returned. *)
Lemma getExtent_fills (this : RenderFeature) :
  extent_ (after (getExtent this)) = Some (result (getExtent this)).
Proof.
  destruct (extent_ this) as [e|] eqn:Hs.
  - rewrite (getExtent_set this e Hs). exact Hs.
  - rewrite (getExtent_unset this Hs). reflexivity.
Qed.

Lemma getFlatInteriorPoint_fills (this : RenderFeature) :
  flatInteriorPoints_ (after (getFlatInteriorPoint this))
  = Some (result (getFlatInteriorPoint this)).
Proof.
  destruct (flatInteriorPoints_ this) as [v|] eqn:Hs.
  - rewrite (getFlatInteriorPoint_set this v Hs). exact Hs.
  - rewrite (getFlatInteriorPoint_unset this Hs). reflexivity.
Qed.

Lemma getFlatInteriorPoints_fills (this : RenderFeature) :
  flatInteriorPoints_ (after (getFlatInteriorPoints this))
  = Some (result (getFlatInteriorPoints this)).
Proof.
  destruct (flatInteriorPoints_ this) as [v|] eqn:Hs.
  - rewrite (getFlatInteriorPoints_set this v Hs). exact Hs.
  - rewrite (getFlatInteriorPoints_unset this Hs). reflexivity.
Qed.

Lemma getFlatMidpoint_fills (this : RenderFeature) :
  flatMidpoints_ (after (getFlatMidpoint this))
  = Some (result (getFlatMidpoint this)).
Proof.
  destruct (flatMidpoints_ this) as [v|] eqn:Hs.
  - rewrite (getFlatMidpoint_set this v Hs). exact Hs.
  - rewrite (getFlatMidpoint_unset this Hs). reflexivity.
Qed.

Lemma getFlatMidpoints_fills (this : RenderFeature) :
  flatMidpoints_ (after (getFlatMidpoints this))
  = Some (result (getFlatMidpoints this)).
Proof.
  destruct (flatMidpoints_ this) as [v|] eqn:Hs.
  - rewrite (getFlatMidpoints_set this v Hs). exact Hs.
  - rewrite (getFlatMidpoints_unset this Hs). reflexivity.
Qed.

End Cache.

(* ================================================================== *)
(** ** The affine transform engine *)
(* ================================================================== *)

Lemma aget_aset (a : list num) (i j : Z) (v : num) :
  0 <= i -> 0 <= j ->
  aget (aset a j v) i = if decide (i = j) then v else aget a i.
Proof.
  intros Hi Hj. unfold aget, aset.
  destruct (Z.ltb_spec i 0) as [?|_]; [lia|].
  destruct (Nat.ltb_spec (Z.to_nat j) (length a)) as [Hlt|Hge].
  - destruct (decide (i = j)) as [->|Hne].
    + rewrite list_lookup_insert_eq by exact Hlt. reflexivity.
    + rewrite list_lookup_insert_ne by lia. reflexivity.
  - destruct (decide (i = j)) as [->|Hne].
    + rewrite lookup_app_r by exact Hge.
      rewrite lookup_app_r by (rewrite length_replicate; lia).
      rewrite length_replicate.
      replace (Z.to_nat j - length a - (Z.to_nat j - length a))%nat
        with 0%nat by lia.
      reflexivity.
    + destruct (Nat.lt_ge_cases (Z.to_nat i) (length a)) as [Hin|Hout].
      * rewrite lookup_app_l by exact Hin. reflexivity.
      * rewrite lookup_app_r by exact Hout.
        rewrite (lookup_ge_None_2 a) by exact Hout.
        destruct (Nat.lt_ge_cases (Z.to_nat i - length a)
                    (Z.to_nat j - length a)) as [Hh|Hh].
        -- rewrite lookup_app_l by (rewrite length_replicate; exact Hh).
           rewrite lookup_replicate_2 by exact Hh. reflexivity.
        -- rewrite lookup_app_r by (rewrite length_replicate; exact Hh).
           rewrite length_replicate.
           rewrite lookup_ge_None_2 by (simpl; lia). reflexivity.
Qed.

(** After [compose] the matrix holds the six values written, whatever it
    held before. *)
Lemma apply_transform_set6 (t : Transform) (t0 t1 t2 t3 t4 t5 : num)
    (p : num * num) :
  apply_transform (set6 t t0 t1 t2 t3 t4 t5) p
  = ( (t0 * fst p + t2 * snd p + t4)%num,
      (t1 * fst p + t3 * snd p + t5)%num ).
Proof.
  destruct p as [x y]. unfold apply_transform, set6.
  rewrite !aget_aset by lia. reflexivity.
Qed.

Lemma map_pairs_ext (g h : num * num -> num * num) (l : list num) :
  (forall p, g p = h p) -> map_pairs g l = map_pairs h l.
Proof.
  intros Hext. induction l as [|x|x y l IH] using pair_ind; simpl.
  - reflexivity.
  - rewrite Hext. reflexivity.
  - rewrite Hext, IH. reflexivity.
Qed.

Lemma map_pairs_ext_in (g h : num * num -> num * num) (l : list num) :
  (forall p, p ∈ coordinate_pairs l -> g p = h p) ->
  map_pairs g l = map_pairs h l.
Proof.
  induction l as [|x|x y l IH] using pair_ind; intros Hext.
  - reflexivity.
  - simpl. rewrite Hext by (simpl; left). reflexivity.
  - simpl. rewrite Hext by (simpl; left).
    rewrite IH; [reflexivity|].
    intros p Hp. apply Hext. simpl. right. exact Hp.
Qed.

Lemma map_pairs_compose (g h : num * num -> num * num) (l : list num) :
  map_pairs g (map_pairs h l) = map_pairs (fun p => g (h p)) l.
Proof.
  induction l as [|x|x y l IH] using pair_ind; simpl.
  - reflexivity.
  - destruct (h (x, NaN)) as [x' y']. reflexivity.
  - destruct (h (x, y)) as [x' y']. simpl. rewrite IH. reflexivity.
Qed.

Lemma length_map_pairs_even (g : num * num -> num * num) (l : list num) :
  Nat.Even (length (map_pairs g l)).
Proof.
  induction l as [|x|x y l IH] using pair_ind; simpl.
  - exists 0%nat. reflexivity.
  - destruct (g (x, NaN)). exists 1%nat. reflexivity.
  - destruct (g (x, y)). destruct IH as [k Hk]. exists (S k). simpl. lia.
Qed.

Lemma aget_app_0 (pre l : list num) (x : num) :
  aget (pre ++ x :: l) (alength pre) = x.
Proof.
  rewrite <- (Z.add_0_r (alength pre)). rewrite aget_app_r by lia. reflexivity.
Qed.

Lemma aget_app_1 (pre l : list num) (x y : num) :
  aget (pre ++ x :: y :: l) (alength pre + 1) = y.
Proof. rewrite aget_app_r by lia. reflexivity. Qed.

Lemma aget_app_1_end (pre : list num) (x : num) :
  aget (pre ++ [x]) (alength pre + 1) = NaN.
Proof. rewrite aget_app_r by lia. reflexivity. Qed.

Lemma aset_app_0 (pre l : list num) (x v : num) :
  aset (pre ++ x :: l) (alength pre) v = pre ++ v :: l.
Proof.
  rewrite <- (Z.add_0_r (alength pre)). rewrite aset_app_r by lia. reflexivity.
Qed.

Lemma aset_app_1 (pre l : list num) (x y v : num) :
  aset (pre ++ x :: y :: l) (alength pre + 1) v = pre ++ x :: v :: l.
Proof. rewrite aset_app_r by lia. reflexivity. Qed.

Lemma aset_app_1_end (pre : list num) (x v : num) :
  aset (pre ++ [x]) (alength pre + 1) v = pre ++ [x; v].
Proof. rewrite aset_app_r by lia. reflexivity. Qed.

(** One round of the in-place loop on a full pair, and on a last lone
    number: the second write then lands one past the end and lengthens the
    array. *)
Lemma transform2D_step_pair (t : Transform) (pre l : list num) (x y : num) :
  transform2D_step t (pre ++ x :: y :: l, alength pre) (alength pre)
  = (pre ++ fst (apply_transform t (x, y))
         :: snd (apply_transform t (x, y)) :: l,
     alength pre + 2).
Proof.
  unfold transform2D_step. cbv beta iota zeta.
  rewrite aget_app_0, aget_app_1.
  destruct (apply_transform t (x, y)) as [x' y'].
  rewrite aset_app_0, aset_app_1. reflexivity.
Qed.

Lemma transform2D_step_last (t : Transform) (pre : list num) (x : num) :
  transform2D_step t (pre ++ [x], alength pre) (alength pre)
  = (pre ++ [fst (apply_transform t (x, NaN));
             snd (apply_transform t (x, NaN))],
     alength pre + 2).
Proof.
  unfold transform2D_step. cbv beta iota zeta.
  rewrite aget_app_0, aget_app_1_end.
  destruct (apply_transform t (x, NaN)) as [x' y'].
  rewrite aset_app_0, aset_app_1_end. reflexivity.
Qed.

(** The in-place loop of [transform2D] over a whole buffer. *)
Lemma transform2D_loop (t : Transform) (pre l : list num) :
  fold_left (transform2D_step t)
            (loop_indices (alength pre) (alength pre + alength l) 2)
            (pre ++ l, alength pre)
  = (pre ++ map_pairs (apply_transform t) l,
     alength pre + alength (map_pairs (apply_transform t) l)).
Proof.
  revert pre. induction l as [|x|x y l IH] using pair_ind; intros pre.
  - rewrite loop_indices_nil by (unfold alength; simpl; lia).
    simpl. f_equal. unfold alength. simpl. lia.
  - rewrite loop_indices_cons by (unfold alength; simpl; lia).
    rewrite loop_indices_nil by (unfold alength; simpl; lia).
    cbn [fold_left]. rewrite transform2D_step_last.
    cbn [map_pairs]. destruct (apply_transform t (x, NaN)) as [x' y'].
    reflexivity.
  - rewrite loop_indices_cons by (unfold alength; simpl; lia).
    cbn [fold_left]. rewrite transform2D_step_pair.
    cbn [map_pairs]. destruct (apply_transform t (x, y)) as [x' y'].
    cbn [fst snd].
    specialize (IH (pre ++ [x'; y'])).
    rewrite <- app_assoc in IH. simpl in IH.
    rewrite alength_app in IH.
    change (alength [x'; y']) with 2 in IH.
    replace (alength pre + alength (x :: y :: l))
      with (alength pre + 2 + alength l) by (unfold alength; simpl; lia).
    rewrite IH, <- app_assoc. cbn [app]. f_equal.
    unfold alength. cbn [length]. lia.
Qed.

Lemma transform2D_whole (t : Transform) (flatCoordinates : list num) :
  transform2D flatCoordinates 0 (alength flatCoordinates) 2 t
  = map_pairs (apply_transform t) flatCoordinates.
Proof.
  unfold transform2D.
  pose proof (transform2D_loop t [] flatCoordinates) as Hloop.
  simpl in Hloop. change (alength []) with 0 in Hloop.
  rewrite !Z.add_0_l in Hloop. rewrite Hloop.
  destruct (decide _) as [_|Hne]; [reflexivity | contradiction].
Qed.

Lemma num_of_Z_0 : num_of_Z 0 = Fin 0%Qc.
Proof. unfold num_of_Z. rewrite Z2Qc_inj_0. reflexivity. Qed.

Lemma num_of_Z_1 : num_of_Z 1 = Fin 1%Qc.
Proof. unfold num_of_Z. rewrite Z2Qc_inj_1. reflexivity. Qed.

Lemma nadd_0_l (a : num) : (Fin 0%Qc + a)%num = a.
Proof. destruct a; simpl; try reflexivity. f_equal. ring. Qed.

Section Transform.
Context `{E : Engines}.

Lemma apply_composeTransform (t : Transform)
    (dx1 dy1 sx sy angle dx2 dy2 : num) (p : num * num) :
  apply_transform (composeTransform t dx1 dy1 sx sy angle dx2 dy2) p
  = ( (sx * Math_cos angle * fst p + - sx * Math_sin angle * snd p
       + (dx2 * sx * Math_cos angle - dy2 * sx * Math_sin angle + dx1))%num,
      (sy * Math_sin angle * fst p + sy * Math_cos angle * snd p
       + (dx2 * sy * Math_sin angle + dy2 * sy * Math_cos angle + dy1))%num ).
Proof.
  unfold composeTransform, composeTransform_with.
  apply apply_transform_set6.
Qed.

(** The matrix composed does not depend on what [tmpTransform] held. *)
Lemma apply_composeTransform_any (t t' : Transform)
    (dx1 dy1 sx sy angle dx2 dy2 : num) (p : num * num) :
  apply_transform (composeTransform t dx1 dy1 sx sy angle dx2 dy2) p
  = apply_transform (composeTransform t' dx1 dy1 sx sy angle dx2 dy2) p.
Proof. rewrite !apply_composeTransform. reflexivity. Qed.

(** On a resolvable source the call returns, and maps every pair of the
    buffer by the matrix composed from the source projection. *)
Lemma transform_resolved (source destination : ProjectionLike)
    (tmpTransform : Transform) (this : RenderFeature) (p : Projection) :
  getProjection source = Some p ->
  exists tmpTransform',
    transform source destination tmpTransform this
    = Some (set_flatCoordinates_
              (map_pairs (pixel_to_world p) (flatCoordinates_ this)) this,
            tmpTransform')
    /\ forall q, apply_transform tmpTransform' q = pixel_to_world p q.
Proof.
  intros Hp. unfold transform. rewrite Hp.
  eexists. split.
  - rewrite transform2D_whole. do 3 f_equal.
    apply map_pairs_ext. intros q. apply apply_composeTransform_any.
  - intros q. apply apply_composeTransform_any.
Qed.

Lemma transform_unresolved (source destination : ProjectionLike)
    (tmpTransform : Transform) (this : RenderFeature) :
  getProjection source = None ->
  transform source destination tmpTransform this = None.
Proof. intros Hp. unfold transform. rewrite Hp. reflexivity. Qed.

(** With a finite scale the matrix is the affine map onto the world extent
    of the source, at every finite pair. *)
Lemma pixel_to_world_affine (p : Projection) (x y : num) :
  is_finite (scale_of p) -> is_finite x -> is_finite y ->
  pixel_to_world p (x, y) = affine_by_source p (x, y).
Proof.
  intros Hs Hx Hy. unfold pixel_to_world, affine_by_source, affine_onto.
  rewrite apply_composeTransform, Math_sin_0, Math_cos_0.
  rewrite num_of_Z_0, num_of_Z_1. cbn [fst snd].
  destruct (scale_of p) as [s| | |]; try contradiction.
  destruct x as [x| | |]; try contradiction.
  destruct y as [y| | |]; try contradiction.
  f_equal.
  - destruct (aget (proj_worldExtent p) 0); simpl; try reflexivity.
    f_equal. ring.
  - destruct (aget (proj_worldExtent p) 3); simpl; try reflexivity.
    f_equal. ring.
Qed.

End Transform.

(* ================================================================== *)
(** ** What the accessors leave alone *)
(* ================================================================== *)

Section Frame.
Context `{E : Engines}.

Lemma same_data_refl (this : RenderFeature) : same_data this this.
Proof. repeat split. Qed.

Lemma same_data_trans (a b c : RenderFeature) :
  same_data a b -> same_data b c -> same_data a c.
Proof.
  unfold same_data. intros (?&?&?&?&?) (?&?&?&?&?).
  repeat split; congruence.
Qed.

Lemma getExtent_same_data (this : RenderFeature) :
  same_data this (after (getExtent this)).
Proof.
  destruct (extent_ this) as [e|] eqn:Hs.
  - rewrite (getExtent_set this e Hs). apply same_data_refl.
  - rewrite (getExtent_unset this Hs). repeat split.
Qed.

Lemma getFlatInteriorPoint_same_data (this : RenderFeature) :
  same_data this (after (getFlatInteriorPoint this)).
Proof.
  destruct (flatInteriorPoints_ this) as [v|] eqn:Hs.
  - rewrite (getFlatInteriorPoint_set this v Hs). apply same_data_refl.
  - rewrite (getFlatInteriorPoint_unset this Hs).
    apply (same_data_trans _ _ _ (getExtent_same_data this)). repeat split.
Qed.

Lemma getFlatInteriorPoints_same_data (this : RenderFeature) :
  same_data this (after (getFlatInteriorPoints this)).
Proof.
  destruct (flatInteriorPoints_ this) as [v|] eqn:Hs.
  - rewrite (getFlatInteriorPoints_set this v Hs). apply same_data_refl.
  - rewrite (getFlatInteriorPoints_unset this Hs). repeat split.
Qed.

Lemma getFlatMidpoint_same_data (this : RenderFeature) :
  same_data this (after (getFlatMidpoint this)).
Proof.
  destruct (flatMidpoints_ this) as [v|] eqn:Hs.
  - rewrite (getFlatMidpoint_set this v Hs). apply same_data_refl.
  - rewrite (getFlatMidpoint_unset this Hs). repeat split.
Qed.

Lemma getFlatMidpoints_same_data (this : RenderFeature) :
  same_data this (after (getFlatMidpoints this)).
Proof.
  destruct (flatMidpoints_ this) as [v|] eqn:Hs.
  - rewrite (getFlatMidpoints_set this v Hs). apply same_data_refl.
  - rewrite (getFlatMidpoints_unset this Hs). repeat split.
Qed.

Lemma after_fmap {A B} (g : A -> B) (m : Method A) (this : RenderFeature) :
  after ((g <$> m) this) = after (m this).
Proof.
  unfold fmap, Method_fmap, after. destruct (m this). reflexivity.
Qed.

Lemma result_fmap {A B} (g : A -> B) (m : Method A) (this : RenderFeature) :
  result ((g <$> m) this) = g (result (m this)).
Proof.
  unfold fmap, Method_fmap, result. destruct (m this). reflexivity.
Qed.

(** The receiver after a call of an accessor without a slot is the
    receiver before. *)
Lemma call_no_slot (a : Accessor) (this : RenderFeature) :
  own_slot a = None -> after (call a this) = this.
Proof. destruct a; intros Hs; try discriminate; reflexivity. Qed.

Lemma call_same_data (a : Accessor) (this : RenderFeature) :
  same_data this (after (call a this)).
Proof.
  destruct (own_slot a) as [s|] eqn:Hown.
  - destruct a; try discriminate; unfold call; rewrite after_fmap;
      auto using getExtent_same_data, getFlatInteriorPoint_same_data,
        getFlatInteriorPoints_same_data, getFlatMidpoint_same_data,
        getFlatMidpoints_same_data.
  - rewrite call_no_slot by exact Hown. apply same_data_refl.
Qed.

Lemma getExtent_other_slots (this : RenderFeature) (s : Slot) :
  s <> ExtentSlot ->
  slot_value s (after (getExtent this)) = slot_value s this.
Proof.
  intros Hne. destruct (extent_ this) as [e|] eqn:Hs.
  - rewrite (getExtent_set this e Hs). reflexivity.
  - rewrite (getExtent_unset this Hs). destruct s; [contradiction| |]; reflexivity.
Qed.

Lemma getFlatInteriorPoint_midpoints_unset (this : RenderFeature) :
  flatMidpoints_
    (set_flatInteriorPoints_ (Some (flatInteriorPoint_of this))
       (after (getExtent this)))
  = flatMidpoints_ this.
Proof. apply (getExtent_other_slots this MidpointsSlot). discriminate. Qed.

Lemma getFlatInteriorPoint_midpoints (this : RenderFeature) :
  flatMidpoints_ (after (getFlatInteriorPoint this)) = flatMidpoints_ this.
Proof.
  destruct (flatInteriorPoints_ this) as [v|] eqn:Hs.
  - rewrite (getFlatInteriorPoint_set this v Hs). reflexivity.
  - rewrite (getFlatInteriorPoint_unset this Hs). cbn.
    apply (getExtent_other_slots this MidpointsSlot). discriminate.
Qed.

Lemma getFlatInteriorPoints_other_slots (this : RenderFeature) (s : Slot) :
  s <> InteriorPointsSlot ->
  slot_value s (after (getFlatInteriorPoints this)) = slot_value s this.
Proof.
  intros Hne. destruct (flatInteriorPoints_ this) as [v|] eqn:Hs.
  - rewrite (getFlatInteriorPoints_set this v Hs). reflexivity.
  - rewrite (getFlatInteriorPoints_unset this Hs).
    destruct s; [|contradiction|]; reflexivity.
Qed.

Lemma getFlatMidpoint_other_slots (this : RenderFeature) (s : Slot) :
  s <> MidpointsSlot ->
  slot_value s (after (getFlatMidpoint this)) = slot_value s this.
Proof.
  intros Hne. destruct (flatMidpoints_ this) as [v|] eqn:Hs.
  - rewrite (getFlatMidpoint_set this v Hs). reflexivity.
  - rewrite (getFlatMidpoint_unset this Hs).
    destruct s; [| |contradiction]; reflexivity.
Qed.

Lemma getFlatMidpoints_other_slots (this : RenderFeature) (s : Slot) :
  s <> MidpointsSlot ->
  slot_value s (after (getFlatMidpoints this)) = slot_value s this.
Proof.
  intros Hne. destruct (flatMidpoints_ this) as [v|] eqn:Hs.
  - rewrite (getFlatMidpoints_set this v Hs). reflexivity.
  - rewrite (getFlatMidpoints_unset this Hs).
    destruct s; [| |contradiction]; reflexivity.
Qed.

(** A call leaves every slot it may not fill as it was. *)
Lemma call_other_slots (a : Accessor) (this : RenderFeature) (s : Slot) :
  s ∉ filled_slots a ->
  slot_value s (after (call a this)) = slot_value s this.
Proof.
  intros Hnot.
  destruct (own_slot a) as [o|] eqn:Hown;
    [|rewrite call_no_slot by exact Hown; reflexivity].
  destruct a; try discriminate; unfold call; rewrite after_fmap;
    cbn in Hnot; rewrite ?not_elem_of_cons in Hnot.
  - apply getExtent_other_slots, Hnot.
  - destruct s; [destruct Hnot as (_ & [] & _) | destruct Hnot as ([] & _) |];
      try reflexivity.
    apply getFlatInteriorPoint_midpoints.
  - apply getFlatInteriorPoints_other_slots, Hnot.
  - apply getFlatMidpoint_other_slots, Hnot.
  - apply getFlatMidpoints_other_slots, Hnot.
Qed.

(** A slot that is set keeps its value through every accessor call. *)
Lemma call_keeps_set (a : Accessor) (this : RenderFeature) (s : Slot)
    (v : list num) :
  slot_value s this = Some v -> slot_value s (after (call a this)) = Some v.
Proof.
  intros Hset.
  destruct (own_slot a) as [o|] eqn:Hown;
    [|rewrite call_no_slot by exact Hown; exact Hset].
  destruct a; try discriminate; unfold call; rewrite after_fmap.
  - destruct s; cbn in Hset;
      [rewrite (getExtent_set this v Hset); exact Hset | |];
      (rewrite getExtent_other_slots by discriminate; exact Hset).
  - destruct (flatInteriorPoints_ this) as [w|] eqn:Hs.
    + rewrite (getFlatInteriorPoint_set this w Hs). exact Hset.
    + rewrite (getFlatInteriorPoint_unset this Hs).
      destruct s; cbn in Hset.
      * rewrite (getExtent_set this v Hset). exact Hset.
      * congruence.
      * exact (eq_trans (getFlatInteriorPoint_midpoints_unset this) Hset).
  - destruct s; cbn in Hset;
      [|rewrite (getFlatInteriorPoints_set this v Hset); exact Hset|];
      (rewrite getFlatInteriorPoints_other_slots by discriminate; exact Hset).
  - destruct s; cbn in Hset;
      [| |rewrite (getFlatMidpoint_set this v Hset); exact Hset];
      (rewrite getFlatMidpoint_other_slots by discriminate; exact Hset).
  - destruct s; cbn in Hset;
      [| |rewrite (getFlatMidpoints_set this v Hset); exact Hset];
      (rewrite getFlatMidpoints_other_slots by discriminate; exact Hset).
Qed.

Lemma calls_keep_set (l : list Accessor) (this : RenderFeature) (s : Slot)
    (v : list num) :
  slot_value s this = Some v -> slot_value s (calls l this) = Some v.
Proof.
  revert this. induction l as [|a l IH]; intros this Hset; [exact Hset|].
  unfold calls. cbn [fold_left]. apply IH, call_keeps_set, Hset.
Qed.

Lemma calls_same_data (l : list Accessor) (this : RenderFeature) :
  same_data this (calls l this).
Proof.
  revert this. induction l as [|a l IH]; intros this; [apply same_data_refl|].
  unfold calls. cbn [fold_left].
  eapply same_data_trans; [apply call_same_data | apply IH].
Qed.

(** The extent slot stays current through accessor calls: a feature from
    the constructor that is only read has a current extent slot. *)
Lemma new_extent_current (type : GeometryType) (flatCoordinates : list num)
    (ends : Ends) (properties : JsObject) (id : FeatureId) :
  extent_current (new_RenderFeature type flatCoordinates ends properties id).
Proof. left. reflexivity. Qed.

Lemma extent_of_same_data (this this' : RenderFeature) :
  same_data this this' -> extent_of this' = extent_of this.
Proof.
  intros (Hfc & _ & _ & _ & Hty). unfold extent_of. rewrite Hfc, Hty.
  reflexivity.
Qed.

Lemma call_extent_current (a : Accessor) (this : RenderFeature) :
  extent_current this -> extent_current (after (call a this)).
Proof.
  intros Hcur. unfold extent_current.
  rewrite (extent_of_same_data _ _ (call_same_data a this)).
  destruct Hcur as [Hunset|Hset].
  - destruct (own_slot a) as [o|] eqn:Hown;
      [|rewrite call_no_slot by exact Hown; left; exact Hunset].
    destruct a; try discriminate; unfold call; rewrite after_fmap.
    + right. rewrite (getExtent_unset this Hunset). reflexivity.
    + destruct (flatInteriorPoints_ this) as [v|] eqn:Hs.
      * rewrite (getFlatInteriorPoint_set this v Hs). left. exact Hunset.
      * rewrite (getFlatInteriorPoint_unset this Hs).
        rewrite (getExtent_unset this Hunset). right. reflexivity.
    + left. rewrite <- Hunset.
      apply (getFlatInteriorPoints_other_slots this ExtentSlot). discriminate.
    + left. rewrite <- Hunset.
      apply (getFlatMidpoint_other_slots this ExtentSlot). discriminate.
    + left. rewrite <- Hunset.
      apply (getFlatMidpoints_other_slots this ExtentSlot). discriminate.
  - right. apply (call_keeps_set a this ExtentSlot), Hset.
Qed.

Lemma calls_extent_current (l : list Accessor) (this : RenderFeature) :
  extent_current this -> extent_current (calls l this).
Proof.
  revert this. induction l as [|a l IH]; intros this Hcur; [exact Hcur|].
  unfold calls. cbn [fold_left]. apply IH, call_extent_current, Hcur.
Qed.

End Frame.

(* ================================================================== *)
(** ** Midpoints ring by ring *)
(* ================================================================== *)

Section Midpoints.
Context `{E : Engines}.

Lemma midpoints_loop (flatCoordinates acc : list num) (offset : Z)
    (ends : list Z) :
  fst (fold_left (midpoints_step flatCoordinates) (map EndNumber ends)
                 (acc, EndNumber offset))
  = acc ++ concat (map (slice_midpoint flatCoordinates)
                       (zip (offset :: ends) ends)).
Proof.
  revert acc offset. induction ends as [|e ends IH]; intros acc offset.
  - simpl. rewrite app_nil_r. reflexivity.
  - cbn [map fold_left]. unfold midpoints_step at 2. rewrite IH.
    unfold extend. rewrite <- app_assoc. reflexivity.
Qed.

Lemma flatMidpoints_of_flat (this : RenderFeature) (ends : list Z) :
  ends_ this = FlatEnds ends ->
  flatMidpoints_of this
  = concat (map (slice_midpoint (flatCoordinates_ this)) (ring_slices ends)).
Proof.
  intros He. unfold flatMidpoints_of. rewrite He. cbn [ends_items].
  rewrite midpoints_loop. reflexivity.
Qed.

Lemma length_concat_pairs (ls : list (list num)) :
  Forall (fun l => length l = 2%nat) ls ->
  length (concat ls) = (2 * length ls)%nat.
Proof.
  induction 1 as [|l ls Hl _ IH]; [reflexivity|].
  cbn [concat]. rewrite length_app, Hl, IH. cbn [length]. lia.
Qed.

End Midpoints.

(* ================================================================== *)
(** ** Properties of the render feature *)
(* ================================================================== *)

(** C2, as the code has it.  On a feature whose type is not Point and whose
    buffer is not empty, [getExtent] returns [[minX, minY, maxX, maxY]] where every pair
    [(x, y)] of the buffer has [minX <= x <= maxX] and [minY <= y <= maxY],
    and each of the four bounds is the coordinate of some pair; on a Point
    feature with the single pair [(x, y)] it returns [[x, y, x, y]].  This
    holds when the buffer is of even count and without [NaN], and the
    extent slot is current (unset, or holding the extent of the present
    buffer), as it is on every feature from the constructor that has only
    been read ([calls_extent_current]). *)
Theorem getExtent_bounds (this : RenderFeature) :
  extent_current this ->
  (type_ this <> POINT ->
   flatCoordinates_ this <> [] ->
   Nat.Even (length (flatCoordinates_ this)) ->
   Forall (fun v => v <> NaN) (flatCoordinates_ this) ->
   exists minX minY maxX maxY,
     result (getExtent this) = [minX; minY; maxX; maxY]
     /\ (forall x y, (x, y) ∈ coordinate_pairs (flatCoordinates_ this) ->
           (minX <= x)%num /\ (x <= maxX)%num
           /\ (minY <= y)%num /\ (y <= maxY)%num)
     /\ (exists y, (minX, y) ∈ coordinate_pairs (flatCoordinates_ this))
     /\ (exists x, (x, minY) ∈ coordinate_pairs (flatCoordinates_ this))
     /\ (exists y, (maxX, y) ∈ coordinate_pairs (flatCoordinates_ this))
     /\ (exists x, (x, maxY) ∈ coordinate_pairs (flatCoordinates_ this)))
  /\ (forall x y,
        type_ this = POINT -> flatCoordinates_ this = [x; y] ->
        result (getExtent this) = [x; y; x; y]).
Proof.
  intros Hcur.
  assert (Hres : result (getExtent this) = extent_of this).
  { destruct Hcur as [Hs|Hs].
    - rewrite (getExtent_unset this Hs). reflexivity.
    - rewrite (getExtent_set this _ Hs). reflexivity. }
  rewrite Hres. unfold extent_of. split.
  - intros Hty Hne Hev Hnum.
    destruct (decide (type_ this = POINT)) as [?|_]; [contradiction|].
    rewrite createOrUpdateFromFlatCoordinates_whole.
    set (ps := coordinate_pairs (flatCoordinates_ this)).
    destruct (coordinate_pairs_numbers _ Hev Hnum) as [Hxs Hys].
    fold ps in Hxs, Hys.
    assert (Hps : ps <> []).
    { unfold ps. destruct (flatCoordinates_ this) as [|x [|y l]];
        [contradiction | discriminate | discriminate]. }
    assert (Hfst : map fst ps <> []) by (destruct ps; [contradiction | discriminate]).
    assert (Hsnd : map snd ps <> []) by (destruct ps; [contradiction | discriminate]).
    destruct (running_min (map fst ps) PosInf) as (_ & _ & HminX & _);
      [discriminate | exact Hxs |].
    destruct (running_min (map snd ps) PosInf) as (_ & _ & HminY & _);
      [discriminate | exact Hys |].
    destruct (running_max (map fst ps) NegInf) as (_ & _ & HmaxX & _);
      [discriminate | exact Hxs |].
    destruct (running_max (map snd ps) NegInf) as (_ & _ & HmaxY & _);
      [discriminate | exact Hys |].
    eexists _, _, _, _. split; [reflexivity|]. split; [|repeat split].
    + intros x y Hin.
      rewrite Forall_forall in HminX, HminY, HmaxX, HmaxY.
      assert (Hx : x ∈ map fst ps)
        by (apply list_elem_of_fmap; exists (x, y); split; [reflexivity | exact Hin]).
      assert (Hy : y ∈ map snd ps)
        by (apply list_elem_of_fmap; exists (x, y); split; [reflexivity | exact Hin]).
      repeat split;
        [apply HminX | apply HmaxX | apply HminY | apply HmaxY]; assumption.
    + apply elem_of_map_fst, running_min_attained; assumption.
    + apply elem_of_map_snd, running_min_attained; assumption.
    + apply elem_of_map_fst, running_max_attained; assumption.
    + apply elem_of_map_snd, running_max_attained; assumption.
  - intros x y Hty Hfc.
    destruct (decide (type_ this = POINT)) as [_|?]; [|contradiction].
    rewrite Hfc. reflexivity.
Qed.

(** A line from [(0, 0)] to [(1, 1)] and a Point at [(3, 5)]. *)
Lemma getExtent_bounds_witness :
  (exists minX minY maxX maxY,
     result (getExtent sample_line) = [minX; minY; maxX; maxY]
     /\ (forall x y, (x, y) ∈ coordinate_pairs (flatCoordinates_ sample_line) ->
           (minX <= x)%num /\ (x <= maxX)%num
           /\ (minY <= y)%num /\ (y <= maxY)%num)
     /\ (exists y, (minX, y) ∈ coordinate_pairs (flatCoordinates_ sample_line))
     /\ (exists x, (x, minY) ∈ coordinate_pairs (flatCoordinates_ sample_line))
     /\ (exists y, (maxX, y) ∈ coordinate_pairs (flatCoordinates_ sample_line))
     /\ (exists x, (x, maxY) ∈ coordinate_pairs (flatCoordinates_ sample_line)))
  /\ result (getExtent sample_point)
     = [num_of_Z 3; num_of_Z 5; num_of_Z 3; num_of_Z 5].
Proof.
  split.
  - apply (getExtent_bounds sample_line).
    + left. reflexivity.
    + discriminate.
    + discriminate.
    + exists 2%nat. reflexivity.
    + repeat constructor; discriminate.
  - apply (getExtent_bounds sample_point).
    + left. reflexivity.
    + reflexivity.
    + reflexivity.
Defined.

(** C2 as stated fails on features it does not exclude.  (1) A stale slot:
    the line from [(0, 0)] to [(1, 1)], read by [getExtent] and then
    transformed by a tile of pixel extent [[0, 0, 4, 4]] and world extent
    [[0, 0, 8, 8]], has the buffer [[0, 8, 2, 6]], and [getExtent] still
    returns [[0, 0, 1, 1]]: the pair [(0, 8)] has [8 > maxY = 1].  (2) A
    [NaN] coordinate: on the line [[NaN, 0, 1, 1]] the bounds of [x] are
    [NaN], and the pair [(1, 1)] is not within them.  (3) A buffer of odd
    count: on [[0, 0, 1]] the scan reads past the end, the bounds of [y] are
    [NaN], and the pair [(0, 0)] is not within them. *)
Lemma getExtent_not_bounds :
  (exists this' tmpTransform',
     @transform sample_engines (ProjObject sample_tile) (ProjObject sample_world)
       createTransform (after (getExtent sample_line))
     = Some (this', tmpTransform')
     /\ type_ this' <> POINT
     /\ flatCoordinates_ this' = nums [0; 8; 2; 6]
     /\ result (getExtent this') = nums [0; 0; 1; 1]
     /\ (num_of_Z 0, num_of_Z 8) ∈ coordinate_pairs (nums [0; 8; 2; 6])
     /\ ~ (num_of_Z 8 <= num_of_Z 1)%num)
  /\ (type_ sample_line_nan <> POINT
      /\ flatCoordinates_ sample_line_nan
         = [NaN; num_of_Z 0; num_of_Z 1; num_of_Z 1]
      /\ extent_ sample_line_nan = None
      /\ result (getExtent sample_line_nan) = [NaN; num_of_Z 0; NaN; num_of_Z 1]
      /\ (num_of_Z 1, num_of_Z 1)
           ∈ coordinate_pairs (flatCoordinates_ sample_line_nan)
      /\ ~ (NaN <= num_of_Z 1)%num
      /\ ~ (num_of_Z 1 <= NaN)%num)
  /\ (type_ sample_line_odd <> POINT
      /\ flatCoordinates_ sample_line_odd = nums [0; 0; 1]
      /\ extent_ sample_line_odd = None
      /\ result (getExtent sample_line_odd) = [num_of_Z 0; NaN; num_of_Z 1; NaN]
      /\ (num_of_Z 0, num_of_Z 0)
           ∈ coordinate_pairs (flatCoordinates_ sample_line_odd)
      /\ ~ (NaN <= num_of_Z 0)%num
      /\ ~ (num_of_Z 0 <= NaN)%num).
Proof.
  split; [|split].
  - eexists _, _. split; [reflexivity|].
    split; [discriminate|].
    split; [apply nums_eqb_eq; vm_compute; reflexivity|].
    split; [apply nums_eqb_eq; vm_compute; reflexivity|].
    split; [constructor|].
    unfold nle. vm_compute. discriminate.
  - split; [discriminate|]. split; [reflexivity|]. split; [reflexivity|].
    split; [apply nums_eqb_eq; vm_compute; reflexivity|].
    split; [cbn; rewrite !elem_of_cons; auto|].
    split; unfold nle; vm_compute; discriminate.
  - split; [discriminate|]. split; [reflexivity|]. split; [reflexivity|].
    split; [apply nums_eqb_eq; vm_compute; reflexivity|].
    split; [constructor|].
    split; unfold nle; vm_compute; discriminate.
Qed.

Section SlotCalls.
Context `{E : Engines}.

(** Every accessor with a slot answers from its slot once the slot is
    set. *)
Lemma call_set (a : Accessor) (this : RenderFeature) (s : Slot)
    (v : list num) :
  own_slot a = Some s -> slot_value s this = Some v ->
  call a this = (RetNumbers v, this).
Proof.
  intros Hown Hset.
  destruct a; try discriminate; injection Hown as <-; cbn in Hset;
    unfold call, fmap, Method_fmap.
  - rewrite (getExtent_set this v Hset). reflexivity.
  - rewrite (getFlatInteriorPoint_set this v Hset). reflexivity.
  - rewrite (getFlatInteriorPoints_set this v Hset). reflexivity.
  - rewrite (getFlatMidpoint_set this v Hset). reflexivity.
  - rewrite (getFlatMidpoints_set this v Hset). reflexivity.
Qed.

(** After a call of an accessor with a slot, the slot holds the array
    returned. *)
Lemma call_fills (a : Accessor) (this : RenderFeature) (s : Slot) :
  own_slot a = Some s ->
  exists v, result (call a this) = RetNumbers v
            /\ slot_value s (after (call a this)) = Some v.
Proof.
  intros Hown.
  destruct a; try discriminate; injection Hown as <-;
    unfold call; rewrite result_fmap, after_fmap; eexists;
    (split; [reflexivity|]); cbn [slot_value].
  - apply getExtent_fills.
  - apply getFlatInteriorPoint_fills.
  - apply getFlatInteriorPoints_fills.
  - apply getFlatMidpoint_fills.
  - apply getFlatMidpoints_fills.
Qed.

End SlotCalls.

(** C3.  For each of the accessors with a slot ([getExtent],
    [getFlatInteriorPoint], [getFlatInteriorPoints], [getFlatMidpoint],
    [getFlatMidpoints]): the first call returns an array [v] and leaves the
    slot set to [v]; a second call returns [v] again and leaves the feature
    as the first call left it.  The second call computes nothing: it gives
    [v] whatever engines it runs with and whatever the buffer then holds;
    and the slot still holds [v] after any further accessor calls. *)
Theorem accessor_twice (E E' : Engines) (a : Accessor) (this : RenderFeature)
    (s : Slot) :
  own_slot a = Some s ->
  exists v,
    result (@call E a this) = RetNumbers v
    /\ slot_value s (after (@call E a this)) = Some v
    /\ @call E a (after (@call E a this))
       = (RetNumbers v, after (@call E a this))
    /\ (forall flatCoordinates,
          result (@call E' a (set_flatCoordinates_ flatCoordinates
                                (after (@call E a this))))
          = RetNumbers v)
    /\ (forall l, slot_value s (@calls E' l (after (@call E a this))) = Some v).
Proof.
  intros Hown.
  destruct (@call_fills E a this s Hown) as (v & Hres & Hslot).
  exists v. split; [exact Hres|]. split; [exact Hslot|]. split; [|split].
  - apply (@call_set E a _ s v Hown Hslot).
  - intros flatCoordinates.
    rewrite (@call_set E' a _ s v Hown); [reflexivity|].
    destruct s; exact Hslot.
  - intros l. apply calls_keep_set, Hslot.
Qed.

Lemma accessor_twice_witness :
  exists v,
    result (@call sample_engines GetFlatMidpoints sample_lines) = RetNumbers v
    /\ slot_value MidpointsSlot
         (after (@call sample_engines GetFlatMidpoints sample_lines)) = Some v
    /\ @call sample_engines GetFlatMidpoints
         (after (@call sample_engines GetFlatMidpoints sample_lines))
       = (RetNumbers v,
          after (@call sample_engines GetFlatMidpoints sample_lines))
    /\ (forall flatCoordinates,
          result (@call sample_engines GetFlatMidpoints
                    (set_flatCoordinates_ flatCoordinates
                       (after (@call sample_engines GetFlatMidpoints
                                 sample_lines))))
          = RetNumbers v)
    /\ (forall l,
          slot_value MidpointsSlot
            (@calls sample_engines l
               (after (@call sample_engines GetFlatMidpoints sample_lines)))
          = Some v).
Proof.
  apply (accessor_twice sample_engines sample_engines GetFlatMidpoints
           sample_lines MidpointsSlot).
  reflexivity.
Defined.

(** C4, as the code has it.  On a feature with the flat ends
    [[e1, ..., en]], [getFlatMidpoints] returns the midpoints (fraction 0.5) of the slices [[0, e1), [e1, e2),
    ..., [e(n-1), en)], one after the other in ring order, and the slot
    holds that array afterwards.  For two rings this is the midpoint of
    [[0, e1)] followed by that of [[e1, e2)]; when the interpolation
    answers a coordinate pair for each slice, [n] rings give [n] pairs.
    This holds when the midpoint slot is current for [getFlatMidpoints]
    (unset, or holding the per-ring midpoints of the present buffer). *)
Theorem getFlatMidpoints_per_ring (E : Engines) (this : RenderFeature)
    (ends : list Z) :
  ends_ this = FlatEnds ends ->
  midpoints_current this ->
  result (getFlatMidpoints this)
  = concat (map (slice_midpoint (flatCoordinates_ this)) (ring_slices ends))
  /\ flatMidpoints_ (after (getFlatMidpoints this))
     = Some (result (getFlatMidpoints this))
  /\ (forall e1 e2, ends = [e1; e2] ->
        result (getFlatMidpoints this)
        = interpolatePoint (flatCoordinates_ this)
            (EndNumber 0) (EndNumber e1) 2 one_half
          ++ interpolatePoint (flatCoordinates_ this)
               (EndNumber e1) (EndNumber e2) 2 one_half)
  /\ ((forall offset end_,
         length (interpolatePoint (flatCoordinates_ this)
                   offset end_ 2 one_half) = 2%nat) ->
      length (result (getFlatMidpoints this)) = (2 * length ends)%nat).
Proof.
  intros Hends Hcur.
  assert (Hres : result (getFlatMidpoints this)
                 = concat (map (slice_midpoint (flatCoordinates_ this))
                               (ring_slices ends))).
  { rewrite <- (flatMidpoints_of_flat this ends Hends).
    destruct Hcur as [Hs|Hs].
    - rewrite (getFlatMidpoints_unset this Hs). reflexivity.
    - rewrite (getFlatMidpoints_set this _ Hs). reflexivity. }
  split; [exact Hres|]. split; [apply getFlatMidpoints_fills|].
  rewrite Hres. split.
  - intros e1 e2 ->. cbn. rewrite app_nil_r. reflexivity.
  - intros Hpair.
    rewrite length_concat_pairs.
    + rewrite length_map. unfold ring_slices.
      rewrite length_zip_with. cbn [length]. lia.
    + apply Forall_map, Forall_forall. intros slice _. apply Hpair.
Qed.

(** Two line strings of two points each: the midpoints are [(5, 0)] and
    [(0, 2)]. *)
Lemma getFlatMidpoints_per_ring_witness :
  result (@getFlatMidpoints sample_engines sample_lines)
  = concat (map (@slice_midpoint sample_engines (flatCoordinates_ sample_lines))
                (ring_slices [4; 8]))
  /\ flatMidpoints_ (after (@getFlatMidpoints sample_engines sample_lines))
     = Some (result (@getFlatMidpoints sample_engines sample_lines))
  /\ (forall e1 e2, [4; 8] = [e1; e2] ->
        result (@getFlatMidpoints sample_engines sample_lines)
        = sample_interpolatePoint (flatCoordinates_ sample_lines)
            (EndNumber 0) (EndNumber e1) 2 one_half
          ++ sample_interpolatePoint (flatCoordinates_ sample_lines)
               (EndNumber e1) (EndNumber e2) 2 one_half)
  /\ length (result (@getFlatMidpoints sample_engines sample_lines)) = 4%nat.
Proof.
  destruct (getFlatMidpoints_per_ring sample_engines sample_lines [4; 8]
              eq_refl (or_introl eq_refl)) as (Hall & Hslot & Htwo & Hlen).
  split; [exact Hall|]. split; [exact Hslot|]. split; [exact Htwo|].
  apply Hlen. intros offset end_. cbn.
  unfold sample_interpolatePoint.
  destruct offset, end_; try reflexivity.
  repeat case_decide; reflexivity.
Defined.

(** The run of the sample: the midpoints of the two lines. *)
Example getFlatMidpoints_sample :
  result (@getFlatMidpoints sample_engines sample_lines) = nums [5; 0; 0; 2].
Proof. apply nums_eqb_eq. vm_compute. reflexivity. Qed.

(** C4 as stated fails when the midpoint slot holds something else.  (1)
    After [getFlatMidpoint]: on two rings of one point each, [(0, 0)] and
    [(10, 0)], with the flat ends [[2, 4]], the per-ring midpoints are
    [[0, 0, 10, 0]]; once [getFlatMidpoint] has stored the midpoint
    [[5, 0]] of the whole buffer, [getFlatMidpoints] returns [[5, 0]], one
    pair for two rings.  (2) After [transform]: the two lines of
    [sample_lines] have the midpoints [[5, 0, 0, 2]]; once these are
    stored, the transform by a tile of pixel extent [[0, 0, 4, 4]] and
    world extent [[0, 0, 8, 8]] moves the lines, whose midpoints are then
    [[10, 8, 0, 4]], and [getFlatMidpoints] still returns
    [[5, 0, 0, 2]]. *)
Lemma getFlatMidpoints_not_per_ring :
  (ends_ sample_two_points = FlatEnds [2; 4]
   /\ concat (map (@slice_midpoint sample_engines
                     (flatCoordinates_ sample_two_points))
                  (ring_slices [2; 4]))
      = nums [0; 0; 10; 0]
   /\ result (@getFlatMidpoint sample_engines sample_two_points) = nums [5; 0]
   /\ result (@getFlatMidpoints sample_engines
                (after (@getFlatMidpoint sample_engines sample_two_points)))
      = nums [5; 0]
   /\ result (@getFlatMidpoints sample_engines
                (after (@getFlatMidpoint sample_engines sample_two_points)))
      <> concat (map (@slice_midpoint sample_engines
                        (flatCoordinates_ sample_two_points))
                     (ring_slices [2; 4])))
  /\ (exists this' tmpTransform',
        @transform sample_engines (ProjObject sample_tile)
          (ProjObject sample_world) createTransform
          (after (@getFlatMidpoints sample_engines sample_lines))
        = Some (this', tmpTransform')
        /\ ends_ this' = FlatEnds [4; 8]
        /\ concat (map (@slice_midpoint sample_engines (flatCoordinates_ this'))
                       (ring_slices [4; 8]))
           = nums [10; 8; 0; 4]
        /\ result (@getFlatMidpoints sample_engines this') = nums [5; 0; 0; 2]
        /\ result (@getFlatMidpoints sample_engines this')
           <> concat (map (@slice_midpoint sample_engines
                             (flatCoordinates_ this'))
                          (ring_slices [4; 8]))).
Proof.
  split.
  - split; [reflexivity|].
    split; [apply nums_eqb_eq; vm_compute; reflexivity|].
    split; [apply nums_eqb_eq; vm_compute; reflexivity|].
    split; [apply nums_eqb_eq; vm_compute; reflexivity|].
    apply nums_eqb_neq. vm_compute. reflexivity.
  - eexists _, _. split; [reflexivity|].
    split; [reflexivity|].
    split; [apply nums_eqb_eq; vm_compute; reflexivity|].
    split; [apply nums_eqb_eq; vm_compute; reflexivity|].
    apply nums_eqb_neq. vm_compute. reflexivity.
Qed.

(** C9.  [getFlatMidpoint] and [getFlatMidpoints] answer from one slot, and
    so do [getFlatInteriorPoint] and [getFlatInteriorPoints]: after a call
    of one method of a pair, a call of the other returns the array the
    first returned and leaves the feature as it is.  On a new feature,
    [getFlatMidpoints] called after [getFlatMidpoint] returns the midpoint
    of the whole buffer. *)
Theorem paired_accessors_share_slot (E : Engines) (this : RenderFeature) :
  getFlatMidpoints (after (getFlatMidpoint this))
  = (result (getFlatMidpoint this), after (getFlatMidpoint this))
  /\ getFlatMidpoint (after (getFlatMidpoints this))
     = (result (getFlatMidpoints this), after (getFlatMidpoints this))
  /\ getFlatInteriorPoints (after (getFlatInteriorPoint this))
     = (result (getFlatInteriorPoint this), after (getFlatInteriorPoint this))
  /\ getFlatInteriorPoint (after (getFlatInteriorPoints this))
     = (result (getFlatInteriorPoints this), after (getFlatInteriorPoints this))
  /\ (forall type flatCoordinates ends properties id,
        result (getFlatMidpoints
                  (after (getFlatMidpoint
                            (new_RenderFeature type flatCoordinates ends
                               properties id))))
        = interpolatePoint flatCoordinates (EndNumber 0)
            (EndNumber (alength flatCoordinates)) 2 one_half).
Proof.
  split; [|split; [|split; [|split]]].
  - apply getFlatMidpoints_set, getFlatMidpoint_fills.
  - apply getFlatMidpoint_set, getFlatMidpoints_fills.
  - apply getFlatInteriorPoints_set, getFlatInteriorPoint_fills.
  - apply getFlatInteriorPoint_set, getFlatInteriorPoints_fills.
  - intros type flatCoordinates ends properties id.
    rewrite (getFlatMidpoints_set _ _ (getFlatMidpoint_fills _)).
    reflexivity.
Qed.

(** C1, as the code has it.  [transform] on a resolvable source returns and
    leaves the three cache slots exactly as they were: it invalidates
    nothing.  An accessor called afterwards returns the array stored before
    the transform when its slot was set, and the value it computes from the
    feature as [transform] left it when its slot was unset. *)
Theorem transform_keeps_cache (E : Engines) (source destination : ProjectionLike)
    (tmpTransform : Transform) (this : RenderFeature) (p : Projection) :
  getProjection source = Some p ->
  exists this' tmpTransform',
    transform source destination tmpTransform this
    = Some (this', tmpTransform')
    /\ same_cache this this'
    /\ (forall a s v,
          own_slot a = Some s -> slot_value s this = Some v ->
          result (call a this') = RetNumbers v)
    /\ (extent_ this = None ->
        result (getExtent this') = extent_of this')
    /\ (flatInteriorPoints_ this = None ->
        result (getFlatInteriorPoint this') = flatInteriorPoint_of this'
        /\ result (getFlatInteriorPoints this') = flatInteriorPoints_of this')
    /\ (flatMidpoints_ this = None ->
        result (getFlatMidpoint this') = flatMidpoint_of this'
        /\ result (getFlatMidpoints this') = flatMidpoints_of this').
Proof.
  intros Hp.
  destruct (transform_resolved source destination tmpTransform this p Hp)
    as (tmp' & Htr & _).
  eexists _, tmp'. split; [exact Htr|].
  split; [intros s; destruct s; reflexivity|].
  split; [|split; [|split]].
  - intros a s v Hown Hset.
    rewrite (call_set a _ s v Hown); [reflexivity|].
    destruct s; exact Hset.
  - intros Hs. rewrite getExtent_unset by exact Hs. reflexivity.
  - intros Hs. split.
    + rewrite getFlatInteriorPoint_unset by exact Hs. reflexivity.
    + rewrite getFlatInteriorPoints_unset by exact Hs. reflexivity.
  - intros Hs. split.
    + rewrite getFlatMidpoint_unset by exact Hs. reflexivity.
    + rewrite getFlatMidpoints_unset by exact Hs. reflexivity.
Qed.

Lemma transform_keeps_cache_witness :
  exists this' tmpTransform',
    @transform sample_engines (ProjObject sample_tile) (ProjObject sample_world)
      createTransform (after (getExtent sample_line))
    = Some (this', tmpTransform')
    /\ same_cache (after (getExtent sample_line)) this'
    /\ (forall a s v,
          own_slot a = Some s ->
          slot_value s (after (getExtent sample_line)) = Some v ->
          result (@call sample_engines a this') = RetNumbers v)
    /\ (extent_ (after (getExtent sample_line)) = None ->
        result (getExtent this') = extent_of this')
    /\ (flatInteriorPoints_ (after (getExtent sample_line)) = None ->
        result (@getFlatInteriorPoint sample_engines this')
        = @flatInteriorPoint_of sample_engines this'
        /\ result (@getFlatInteriorPoints sample_engines this')
           = @flatInteriorPoints_of sample_engines this')
    /\ (flatMidpoints_ (after (getExtent sample_line)) = None ->
        result (@getFlatMidpoint sample_engines this')
        = @flatMidpoint_of sample_engines this'
        /\ result (@getFlatMidpoints sample_engines this')
           = @flatMidpoints_of sample_engines this').
Proof.
  apply (transform_keeps_cache sample_engines (ProjObject sample_tile)
           (ProjObject sample_world) createTransform
           (after (getExtent sample_line)) sample_tile).
  reflexivity.
Defined.

(** C1 as stated fails.  The line from [(0, 0)] to [(1, 1)] has the extent
    [[0, 0, 1, 1]]; once that is cached, the transform by a tile of pixel
    extent [[0, 0, 4, 4]] and world extent [[0, 0, 8, 8]] moves the line to
    [(0, 8)], [(2, 6)], whose extent is [[0, 6, 2, 8]], and [getExtent]
    still returns [[0, 0, 1, 1]]. *)
Lemma transform_returns_stale_extent :
  exists this' tmpTransform',
    @transform sample_engines (ProjObject sample_tile) (ProjObject sample_world)
      createTransform (after (getExtent sample_line))
    = Some (this', tmpTransform')
    /\ result (getExtent sample_line) = nums [0; 0; 1; 1]
    /\ flatCoordinates_ this' = nums [0; 8; 2; 6]
    /\ result (getExtent this') = nums [0; 0; 1; 1]
    /\ extent_of this' = nums [0; 6; 2; 8]
    /\ result (getExtent this') <> extent_of this'.
Proof.
  eexists _, _. split; [reflexivity|].
  assert (Hbefore : result (getExtent sample_line) = nums [0; 0; 1; 1])
    by (apply nums_eqb_eq; vm_compute; reflexivity).
  split; [exact Hbefore|].
  split; [apply nums_eqb_eq; vm_compute; reflexivity|].
  split; [apply nums_eqb_eq; vm_compute; reflexivity|].
  split; [apply nums_eqb_eq; vm_compute; reflexivity|].
  apply nums_eqb_neq. vm_compute. reflexivity.
Qed.

(** C10, as the code has it.  A call of any read accessor leaves the
    coordinate buffer, the ends, the properties, the id and the type as
    they were, and leaves every cache slot as it was except the slots the
    accessor may fill: its own, and for [getFlatInteriorPoint] also the
    extent slot.  [transform] on a resolvable source returns and changes
    the coordinate buffer only: the other fields and the three slots are
    as before; on an unknown source it throws before writing anything. *)
Theorem accessor_frame (E : Engines) (this : RenderFeature) :
  (forall a,
     same_data this (after (call a this))
     /\ forall s, s ∉ filled_slots a ->
          slot_value s (after (call a this)) = slot_value s this)
  /\ (forall source destination tmpTransform p,
        getProjection source = Some p ->
        exists this' tmpTransform',
          transform source destination tmpTransform this
          = Some (this', tmpTransform')
          /\ same_cache this this'
          /\ ends_ this' = ends_ this
          /\ properties_ this' = properties_ this
          /\ id_ this' = id_ this
          /\ type_ this' = type_ this)
  /\ (forall source destination tmpTransform,
        getProjection source = None ->
        transform source destination tmpTransform this = None).
Proof.
  split; [|split].
  - intros a. split.
    + apply call_same_data.
    + intros s Hs. apply call_other_slots, Hs.
  - intros source destination tmpTransform p Hp.
    destruct (transform_resolved source destination tmpTransform this p Hp)
      as (tmp' & Htr & _).
    eexists _, tmp'. split; [exact Htr|].
    split; [intros s; destruct s; reflexivity|].
    repeat split.
  - intros source destination tmpTransform Hp.
    apply transform_unresolved, Hp.
Qed.

Lemma accessor_frame_witness :
  (same_data sample_line
     (after (@call sample_engines GetFlatInteriorPoint sample_line))
   /\ slot_value MidpointsSlot
        (after (@call sample_engines GetFlatInteriorPoint sample_line))
      = slot_value MidpointsSlot sample_line)
  /\ (exists this' tmpTransform',
        @transform sample_engines (ProjObject sample_tile)
          (ProjObject sample_world) createTransform sample_line
        = Some (this', tmpTransform')
        /\ same_cache sample_line this'
        /\ ends_ this' = ends_ sample_line
        /\ properties_ this' = properties_ sample_line
        /\ id_ this' = id_ sample_line
        /\ type_ this' = type_ sample_line)
  /\ @transform sample_engines (ProjCode "EPSG:3857") (ProjObject sample_world)
       createTransform sample_line = None.
Proof.
  destruct (accessor_frame sample_engines sample_line)
    as (Hacc & Htr & Hthrow).
  split; [|split].
  - destruct (Hacc GetFlatInteriorPoint) as [Hdata Hslots].
    split; [exact Hdata|]. apply Hslots.
    cbn. rewrite !not_elem_of_cons.
    repeat split; first [discriminate | apply not_elem_of_nil].
  - apply (Htr (ProjObject sample_tile) (ProjObject sample_world)
             createTransform sample_tile).
    reflexivity.
  - apply Hthrow. reflexivity.
Defined.

(** C10 as stated fails on "at most its own cache slot":
    [getFlatInteriorPoint] answers from the interior-point slot, and on a
    new feature its call also sets the extent slot. *)
Lemma getFlatInteriorPoint_sets_extent_slot :
  own_slot GetFlatInteriorPoint = Some InteriorPointsSlot
  /\ slot_value ExtentSlot sample_line = None
  /\ slot_value ExtentSlot
       (after (@call sample_engines GetFlatInteriorPoint sample_line))
     = Some (nums [0; 0; 1; 1])
  /\ slot_value ExtentSlot
       (after (@call sample_engines GetFlatInteriorPoint sample_line))
     <> slot_value ExtentSlot sample_line.
Proof.
  assert (Hafter : slot_value ExtentSlot
            (after (@call sample_engines GetFlatInteriorPoint sample_line))
          = Some (nums [0; 0; 1; 1])).
  { unfold call. rewrite after_fmap.
    rewrite (getFlatInteriorPoint_unset sample_line eq_refl).
    cbn [after snd slot_value set_flatInteriorPoints_ extent_].
    rewrite (getExtent_fills sample_line). reflexivity. }
  split; [reflexivity|]. split; [reflexivity|]. split; [exact Hafter|].
  rewrite Hafter. discriminate.
Qed.

(** In a buffer of even length and finite numbers every pair is finite. *)
Lemma coordinate_pairs_finite (flatCoordinates : list num) (q : num * num) :
  Nat.Even (length flatCoordinates) ->
  Forall is_finite flatCoordinates ->
  q ∈ coordinate_pairs flatCoordinates ->
  is_finite (fst q) /\ is_finite (snd q).
Proof.
  induction flatCoordinates as [|x|x y l IH] using pair_ind;
    intros Hev Hall Hin.
  - inversion Hin.
  - destruct Hev as [k Hk]. simpl in Hk. lia.
  - apply Forall_cons in Hall as [Hx Hall].
    apply Forall_cons in Hall as [Hy Hall].
    cbn [coordinate_pairs] in Hin. apply elem_of_cons in Hin as [->|Hin].
    + split; assumption.
    + apply IH; [|exact Hall|exact Hin].
      destruct Hev as [k Hk]. simpl in Hk. exists (k - 1)%nat. lia.
Qed.

Lemma affine_onto_origin (world : Extent) (s : Qc) :
  affine_onto world (Fin s) (0%num, 0%num) = (aget world 0, aget world 3).
Proof.
  unfold affine_onto. cbn [fst snd]. rewrite num_of_Z_0. f_equal.
  - destruct (aget world 0); simpl; try reflexivity. f_equal. ring.
  - destruct (aget world 3); simpl; try reflexivity. f_equal. ring.
Qed.

(** C5, as the code has it.  For a resolvable source projection and a
    buffer of even count and finite numbers, when the scale the code
    computes, [s] = the height of the world extent of the SOURCE projection
    over the height of its pixel extent, is a finite number, [transform]
    returns and maps every pair by [x' = s * x + minX],
    [y' = - s * y + maxY], [minX] and [maxY] being the left and the top of
    that same world extent; the destination is not consulted.  The pixel
    origin [(0, 0)] goes to the top-left corner [(minX, maxY)] of the world
    extent, and so does the corner [(pixel minX, pixel minY)] of a pixel
    extent that starts at the origin. *)
Theorem transform_affine_by_source (E : Engines)
    (source destination : ProjectionLike) (tmpTransform : Transform)
    (this : RenderFeature) (p : Projection) (s : Qc) :
  getProjection source = Some p ->
  (getHeight (proj_worldExtent p) / getHeight (proj_extent p))%num = Fin s ->
  Nat.Even (length (flatCoordinates_ this)) ->
  Forall is_finite (flatCoordinates_ this) ->
  exists this' tmpTransform',
    transform source destination tmpTransform this
    = Some (this', tmpTransform')
    /\ flatCoordinates_ this'
       = map_pairs (affine_by_source p) (flatCoordinates_ this)
    /\ (forall x y,
          affine_by_source p (x, y)
          = ( (Fin s * x + aget (proj_worldExtent p) 0)%num,
              (- Fin s * y + aget (proj_worldExtent p) 3)%num ))
    /\ affine_by_source p (0%num, 0%num)
       = (aget (proj_worldExtent p) 0, aget (proj_worldExtent p) 3)
    /\ (aget (proj_extent p) 0 = 0%num -> aget (proj_extent p) 1 = 0%num ->
        affine_by_source p (aget (proj_extent p) 0, aget (proj_extent p) 1)
        = (aget (proj_worldExtent p) 0, aget (proj_worldExtent p) 3)).
Proof.
  intros Hp Hscale Hev Hfin.
  change (scale_of p = Fin s) in Hscale.
  destruct (transform_resolved source destination tmpTransform this p Hp)
    as (tmp' & Htr & _).
  eexists _, tmp'. split; [exact Htr|].
  split; [|split; [|split]].
  - cbn [flatCoordinates_ set_flatCoordinates_].
    apply map_pairs_ext_in. intros [x y] Hin.
    destruct (coordinate_pairs_finite _ _ Hev Hfin Hin) as [Hx Hy].
    apply pixel_to_world_affine; [rewrite Hscale; exact I | exact Hx | exact Hy].
  - intros x y. unfold affine_by_source, affine_onto. rewrite Hscale.
    reflexivity.
  - unfold affine_by_source. rewrite Hscale. apply affine_onto_origin.
  - intros H0 H1. rewrite H0, H1.
    unfold affine_by_source. rewrite Hscale. apply affine_onto_origin.
Qed.

(** The line from [(0, 0)] to [(1, 1)] in a tile of pixel extent
    [[0, 0, 4, 4]] and world extent [[0, 0, 8, 8]]: the scale is [2]. *)
Lemma transform_affine_by_source_witness :
  exists this' tmpTransform',
    @transform sample_engines (ProjObject sample_tile) (ProjObject sample_world)
      createTransform sample_line
    = Some (this', tmpTransform')
    /\ flatCoordinates_ this'
       = map_pairs (affine_by_source sample_tile) (flatCoordinates_ sample_line)
    /\ (forall x y,
          affine_by_source sample_tile (x, y)
          = ( (Fin (Qc_of_Z 2) * x
               + aget (proj_worldExtent sample_tile) 0)%num,
              (- Fin (Qc_of_Z 2) * y
               + aget (proj_worldExtent sample_tile) 3)%num ))
    /\ affine_by_source sample_tile (0%num, 0%num)
       = (aget (proj_worldExtent sample_tile) 0,
          aget (proj_worldExtent sample_tile) 3)
    /\ (aget (proj_extent sample_tile) 0 = 0%num ->
        aget (proj_extent sample_tile) 1 = 0%num ->
        affine_by_source sample_tile
          (aget (proj_extent sample_tile) 0, aget (proj_extent sample_tile) 1)
        = (aget (proj_worldExtent sample_tile) 0,
           aget (proj_worldExtent sample_tile) 3)).
Proof.
  apply (transform_affine_by_source sample_engines (ProjObject sample_tile)
           (ProjObject sample_world) createTransform sample_line sample_tile
           (Qc_of_Z 2)).
  - reflexivity.
  - apply (f_equal Fin), Qc_is_canon. reflexivity.
  - exists 2%nat. reflexivity.
  - repeat constructor.
Defined.

(** C5 as stated fails.  (1) The scale and the corner do not come
    from the destination: with the tile above as source and a destination
    of world extent [[0, 0, 16, 16]], the code sends the line [(0, 0)],
    [(1, 1)] to [(0, 8)], [(2, 6)], and the map by the destination's world
    extent would send it to [(0, 16)], [(4, 12)].  (2) The corner of the
    pixel extent goes to the corner of the world extent only when the pixel
    extent starts at the origin: in a tile of pixel extent [[1, 1, 5, 5]]
    and world extent [[0, 0, 8, 8]] the point [(1, 1)] goes to [(2, 6)],
    not to [(0, 8)].  (3) The map is affine only when the scale computed is
    finite: in a tile whose pixel extent [[0, 0, 4, 0]] has height [0] the
    scale is [8 / 0 = Infinity], and the origin [(0, 0)] goes to
    [(NaN, NaN)]. *)
Lemma transform_not_by_destination :
  (exists this' tmpTransform',
     @transform sample_engines (ProjObject sample_tile)
       (ProjObject sample_world) createTransform sample_line
     = Some (this', tmpTransform')
     /\ flatCoordinates_ this' = nums [0; 8; 2; 6]
     /\ map_pairs (affine_by_destination sample_tile sample_world)
          (flatCoordinates_ sample_line)
        = nums [0; 16; 4; 12]
     /\ flatCoordinates_ this'
        <> map_pairs (affine_by_destination sample_tile sample_world)
             (flatCoordinates_ sample_line))
  /\ (exists this' tmpTransform',
        @transform sample_engines (ProjObject sample_tile_off_origin)
          (ProjObject sample_tile_off_origin) createTransform sample_corner
        = Some (this', tmpTransform')
        /\ flatCoordinates_ sample_corner
           = [aget (proj_extent sample_tile_off_origin) 0;
              aget (proj_extent sample_tile_off_origin) 1]
        /\ flatCoordinates_ this' = nums [2; 6]
        /\ [aget (proj_worldExtent sample_tile_off_origin) 0;
            aget (proj_worldExtent sample_tile_off_origin) 3]
           = nums [0; 8]
        /\ flatCoordinates_ this'
           <> [aget (proj_worldExtent sample_tile_off_origin) 0;
               aget (proj_worldExtent sample_tile_off_origin) 3])
  /\ (exists this' tmpTransform',
        @transform sample_engines (ProjObject sample_tile_flat)
          (ProjObject sample_tile_flat) createTransform sample_origin
        = Some (this', tmpTransform')
        /\ (getHeight (proj_worldExtent sample_tile_flat)
            / getHeight (proj_extent sample_tile_flat))%num = PosInf
        /\ flatCoordinates_ sample_origin = [0%num; 0%num]
        /\ flatCoordinates_ this' = [NaN; NaN]).
Proof.
  split.
  - eexists _, _. split; [reflexivity|].
    split; [apply nums_eqb_eq; vm_compute; reflexivity|].
    split; [apply nums_eqb_eq; vm_compute; reflexivity|].
    apply nums_eqb_neq. vm_compute. reflexivity.
  - split.
    + eexists _, _. split; [reflexivity|].
      split; [reflexivity|].
      split; [apply nums_eqb_eq; vm_compute; reflexivity|].
      split; [reflexivity|].
      apply nums_eqb_neq. vm_compute. reflexivity.
    + eexists _, _. split; [reflexivity|].
      split; [reflexivity|]. split; [reflexivity|].
      apply nums_eqb_eq. vm_compute. reflexivity.
Qed.

(** C6.  Two calls of [transform] in succession, on a resolvable source,
    both return; the second maps the buffer the first has written, so the
    final buffer is the original one with the affine map of the source
    projection applied twice to every pair.  Nothing guards against the
    second application. *)
Theorem transform_twice_composes (E : Engines)
    (source destination : ProjectionLike) (tmpTransform : Transform)
    (this : RenderFeature) (p : Projection) :
  getProjection source = Some p ->
  exists this1 tmpTransform1 this2 tmpTransform2,
    transform source destination tmpTransform this
    = Some (this1, tmpTransform1)
    /\ transform source destination tmpTransform1 this1
       = Some (this2, tmpTransform2)
    /\ flatCoordinates_ this1
       = map_pairs (pixel_to_world p) (flatCoordinates_ this)
    /\ flatCoordinates_ this2
       = map_pairs (pixel_to_world p) (flatCoordinates_ this1)
    /\ flatCoordinates_ this2
       = map_pairs (fun q => pixel_to_world p (pixel_to_world p q))
           (flatCoordinates_ this).
Proof.
  intros Hp.
  destruct (transform_resolved source destination tmpTransform this p Hp)
    as (tmp1 & Htr1 & _).
  destruct (transform_resolved source destination tmp1
              (set_flatCoordinates_
                 (map_pairs (pixel_to_world p) (flatCoordinates_ this)) this)
              p Hp)
    as (tmp2 & Htr2 & _).
  eexists _, tmp1, _, tmp2.
  split; [exact Htr1|]. split; [exact Htr2|].
  split; [reflexivity|]. split; [reflexivity|].
  cbn [flatCoordinates_ set_flatCoordinates_].
  apply map_pairs_compose.
Qed.

Lemma transform_twice_composes_witness :
  exists this1 tmpTransform1 this2 tmpTransform2,
    @transform sample_engines (ProjObject sample_tile) (ProjObject sample_world)
      createTransform sample_line
    = Some (this1, tmpTransform1)
    /\ @transform sample_engines (ProjObject sample_tile)
         (ProjObject sample_world) tmpTransform1 this1
       = Some (this2, tmpTransform2)
    /\ flatCoordinates_ this1
       = map_pairs (@pixel_to_world sample_engines sample_tile)
           (flatCoordinates_ sample_line)
    /\ flatCoordinates_ this2
       = map_pairs (@pixel_to_world sample_engines sample_tile)
           (flatCoordinates_ this1)
    /\ flatCoordinates_ this2
       = map_pairs
           (fun q => @pixel_to_world sample_engines sample_tile
                       (@pixel_to_world sample_engines sample_tile q))
           (flatCoordinates_ sample_line).
Proof.
  apply (transform_twice_composes sample_engines (ProjObject sample_tile)
           (ProjObject sample_world) createTransform sample_line sample_tile).
  reflexivity.
Defined.

(** The run of the sample: [(0, 0)], [(1, 1)] becomes [(0, 8)], [(2, 6)]
    and then [(0, -8)], [(4, -4)]. *)
Example transform_twice_sample :
  match @transform sample_engines (ProjObject sample_tile)
          (ProjObject sample_world) createTransform sample_line with
  | Some (this1, tmpTransform1) =>
      match @transform sample_engines (ProjObject sample_tile)
              (ProjObject sample_world) tmpTransform1 this1 with
      | Some (this2, _) =>
          flatCoordinates_ this1 = nums [0; 8; 2; 6]
          /\ flatCoordinates_ this2 = nums [0; -8; 4; -4]
      | None => False
      end
  | None => False
  end.
Proof.
  cbv beta iota delta [transform getProjection sample_tile].
  split; apply nums_eqb_eq; vm_compute; reflexivity.
Qed.

Lemma chain_get_none (chain : list (gmap string JsValue)) (key : string) :
  Forall (fun object => object !! key = None) chain ->
  chain_get chain key = JsUndefined.
Proof.
  induction 1 as [|object chain Hnone _ IH]; [reflexivity|].
  cbn [chain_get]. rewrite Hnone. exact IH.
Qed.

Lemma chain_get_first (before after_ : list (gmap string JsValue))
    (object : gmap string JsValue) (key : string) (v : JsValue) :
  Forall (fun object => object !! key = None) before ->
  object !! key = Some v ->
  chain_get (before ++ object :: after_) key = v.
Proof.
  intros Hbefore Hv. induction Hbefore as [|o before Hnone _ IH].
  - cbn [app chain_get]. rewrite Hv. reflexivity.
  - cbn [app chain_get]. rewrite Hnone. exact IH.
Qed.

(** C7, as the code has it.  [get(key)] is the property lookup of the
    properties object and never faults.  For a key that is an own property
    it returns the value stored.  For a key that is no own property it
    returns [undefined] when no object of the prototype chain has the key
    either, and otherwise the member of the nearest object of the chain
    that has it.  The feature is left as it is in every case. *)
Theorem get_property (key : string) (this : RenderFeature) :
  (forall v,
     own_properties (properties_ this) !! key = Some v ->
     get key this = (v, this))
  /\ (own_properties (properties_ this) !! key = None ->
      Forall (fun object => object !! key = None)
             (prototype_chain (properties_ this)) ->
      get key this = (JsUndefined, this))
  /\ (forall before object after_ v,
        own_properties (properties_ this) !! key = None ->
        prototype_chain (properties_ this) = before ++ object :: after_ ->
        Forall (fun object => object !! key = None) before ->
        object !! key = Some v ->
        get key this = (v, this)).
Proof.
  split; [|split].
  - intros v Hown. run_method. unfold js_get. rewrite Hown. reflexivity.
  - intros Hown Hchain. run_method. unfold js_get. rewrite Hown.
    rewrite (chain_get_none _ _ Hchain). reflexivity.
  - intros before object after_ v Hown Hchain Hbefore Hv.
    run_method. unfold js_get. rewrite Hown, Hchain.
    rewrite (chain_get_first before after_ object key v Hbefore Hv).
    reflexivity.
Qed.

(** The line built with the object literal [{layer: 'roads'}]: an own key,
    a key found nowhere, and a key inherited from [Object.prototype]. *)
Lemma get_property_witness :
  get "layer" sample_line = (JsString "roads", sample_line)
  /\ get "name" sample_line = (JsUndefined, sample_line)
  /\ get "valueOf" sample_line = (JsFunction "valueOf", sample_line).
Proof.
  destruct (get_property "layer" sample_line) as (Hown & _ & _).
  destruct (get_property "name" sample_line) as (_ & Hnone & _).
  destruct (get_property "valueOf" sample_line) as (_ & _ & Hinherited).
  split; [|split].
  - apply Hown. reflexivity.
  - apply Hnone; [reflexivity|].
    repeat constructor.
  - apply (Hinherited [] Object_prototype []); [reflexivity .. | | ].
    + constructor.
    + reflexivity.
Defined.

(** C7 as stated fails on a key that is absent from the mapping but
    inherited.  The feature built with the object literal
    [{layer: 'roads'}] has no property [toString] of its own, and
    [get('toString')] returns the function [Object.prototype.toString], not
    [undefined]. *)
Lemma get_inherited_toString :
  own_properties (properties_ sample_line) !! "toString" = None
  /\ own_properties (properties_ sample_line) !! "layer"
     = Some (JsString "roads")
  /\ get "toString" sample_line = (JsFunction "toString", sample_line)
  /\ result (get "toString" sample_line) <> JsUndefined.
Proof.
  split; [reflexivity|]. split; [reflexivity|]. split; [reflexivity|].
  discriminate.
Qed.

(** C8.  The outcome of [transform] is the same for any two destinations;
    and the feature it leaves is the same whatever the destination and
    whatever the module's matrix held before the call: it is a function of
    the feature and of the source alone. *)
Theorem transform_destination_irrelevant (E : Engines)
    (source destination1 destination2 : ProjectionLike)
    (tmpTransform : Transform) (this : RenderFeature) :
  transform source destination1 tmpTransform this
  = transform source destination2 tmpTransform this
  /\ forall tmpTransform1 tmpTransform2,
       fst <$> transform source destination1 tmpTransform1 this
       = fst <$> transform source destination2 tmpTransform2 this.
Proof.
  split; [reflexivity|].
  intros tmp1 tmp2.
  destruct (getProjection source) as [p|] eqn:Hp.
  - destruct (transform_resolved source destination1 tmp1 this p Hp)
      as (t1 & -> & _).
    destruct (transform_resolved source destination2 tmp2 this p Hp)
      as (t2 & -> & _).
    reflexivity.
  - rewrite !transform_unresolved by exact Hp. reflexivity.
Qed.

(* ================================================================== *)
(** ** Further properties of the methods *)
(* ================================================================== *)

Section MidpointsAnyEnds.
Context `{E : Engines}.

Lemma midpoints_loop_items (flatCoordinates acc : list num) (offset : EndsItem)
    (items : list EndsItem) :
  fst (fold_left (midpoints_step flatCoordinates) items (acc, offset))
  = acc ++ concat (map (item_midpoint flatCoordinates)
                       (zip (offset :: items) items)).
Proof.
  revert acc offset. induction items as [|e items IH]; intros acc offset.
  - simpl. rewrite app_nil_r. reflexivity.
  - cbn [fold_left]. unfold midpoints_step at 2. rewrite IH.
    unfold extend. rewrite <- app_assoc. reflexivity.
Qed.

End MidpointsAnyEnds.

(** X1.  Whatever the shape of the ends, [getFlatMidpoints] on an unset slot
    returns one interpolated point per element of the ends, in order, the
    offset of each slice being the element before it (the number [0] for
    the first), handed on as it is: for nested endss the inner arrays
    themselves go to the interpolation.  With no ends at all the result is
    the empty array, and since an empty array is cached like any other, a
    later [getFlatMidpoint] answers the empty array too. *)
Theorem getFlatMidpoints_any_ends (E : Engines) (this : RenderFeature) :
  flatMidpoints_ this = None ->
  result (getFlatMidpoints this)
  = concat (map (item_midpoint (flatCoordinates_ this))
                (item_slices (ends_items (ends_ this))))
  /\ (forall endss, ends_ this = NestedEnds endss ->
        result (getFlatMidpoints this)
        = concat (map (item_midpoint (flatCoordinates_ this))
                      (zip (EndNumber 0 :: map EndArray endss)
                           (map EndArray endss))))
  /\ (ends_items (ends_ this) = [] ->
        result (getFlatMidpoints this) = []
        /\ result (getFlatMidpoint (after (getFlatMidpoints this))) = []).
Proof.
  intros Hunset.
  assert (Hres : result (getFlatMidpoints this)
                 = concat (map (item_midpoint (flatCoordinates_ this))
                               (item_slices (ends_items (ends_ this))))).
  { rewrite (getFlatMidpoints_unset this Hunset).
    unfold result, flatMidpoints_of. cbn [fst].
    rewrite midpoints_loop_items. reflexivity. }
  split; [exact Hres|]. split.
  - intros endss Hends. rewrite Hres, Hends. reflexivity.
  - intros Hnone.
    assert (Hnil : result (getFlatMidpoints this) = [])
      by (rewrite Hres, Hnone; reflexivity).
    split; [exact Hnil|].
    rewrite (getFlatMidpoint_set _ _ (getFlatMidpoints_fills this)).
    exact Hnil.
Qed.

Lemma getFlatMidpoints_any_ends_witness :
  result (@getFlatMidpoints sample_engines sample_no_ends)
  = concat (map (@item_midpoint sample_engines (flatCoordinates_ sample_no_ends))
                (item_slices (ends_items (ends_ sample_no_ends))))
  /\ (forall endss, ends_ sample_no_ends = NestedEnds endss ->
        result (@getFlatMidpoints sample_engines sample_no_ends)
        = concat (map (@item_midpoint sample_engines
                         (flatCoordinates_ sample_no_ends))
                      (zip (EndNumber 0 :: map EndArray endss)
                           (map EndArray endss))))
  /\ (ends_items (ends_ sample_no_ends) = [] ->
        result (@getFlatMidpoints sample_engines sample_no_ends) = []
        /\ result (@getFlatMidpoint sample_engines
                     (after (@getFlatMidpoints sample_engines sample_no_ends)))
           = []).
Proof.
  apply (getFlatMidpoints_any_ends sample_engines sample_no_ends).
  reflexivity.
Defined.

Section Lifetime.
Context `{E : Engines}.

Lemma length_map_pairs (g : num * num -> num * num) (l : list num) :
  Nat.Even (length l) -> length (map_pairs g l) = length l.
Proof.
  induction l as [|x|x y l IH] using pair_ind; intros Hev.
  - reflexivity.
  - destruct Hev as [k Hk]. simpl in Hk. lia.
  - cbn [map_pairs]. destruct (g (x, y)). cbn [length]. rewrite IH; [reflexivity|].
    destruct Hev as [k Hk]. simpl in Hk. exists (k - 1)%nat. lia.
Qed.

Lemma kept_refl (this : RenderFeature) : kept this this.
Proof. repeat split; auto. Qed.

Lemma kept_trans (a b c : RenderFeature) : kept a b -> kept b c -> kept a c.
Proof.
  intros (He & Hp & Hi & Ht & Hs & Hl) (He' & Hp' & Hi' & Ht' & Hs' & Hl').
  repeat split; try congruence.
  - intros s v Hv. apply Hs', Hs, Hv.
  - intros Hev. rewrite Hl'; [apply Hl, Hev|]. rewrite Hl by exact Hev. exact Hev.
Qed.

Lemma call_kept (a : Accessor) (this : RenderFeature) :
  kept this (after (call a this)).
Proof.
  destruct (call_same_data a this) as (Hfc & He & Hp & Hi & Ht).
  repeat split; try assumption.
  - intros s v Hv. apply call_keeps_set, Hv.
  - intros _. rewrite Hfc. reflexivity.
Qed.

Lemma transform_kept (source destination : ProjectionLike)
    (tmpTransform : Transform) (this : RenderFeature) :
  is_Some (getProjection source) ->
  exists this' tmpTransform',
    transform source destination tmpTransform this = Some (this', tmpTransform')
    /\ kept this this'.
Proof.
  intros [p Hp].
  destruct (transform_resolved source destination tmpTransform this p Hp)
    as (tmp' & Htr & _).
  eexists _, tmp'. split; [exact Htr|].
  repeat split.
  - intros s v Hv. destruct s; exact Hv.
  - intros Hev. cbn [flatCoordinates_ set_flatCoordinates_].
    apply length_map_pairs, Hev.
Qed.

Lemma run_kept (ops : list Operation) (this : RenderFeature)
    (tmpTransform : Transform) :
  Forall resolvable ops ->
  exists this' tmpTransform',
    run ops (this, tmpTransform) = Some (this', tmpTransform')
    /\ kept this this'.
Proof.
  intros Hops. revert this tmpTransform.
  induction Hops as [|op ops Hop _ IH]; intros this tmpTransform.
  - exists this, tmpTransform. split; [reflexivity | apply kept_refl].
  - cbn [run]. destruct op as [a|source destination]; cbn [step_op fst snd].
    + destruct (IH (after (call a this)) tmpTransform) as (this' & tmp' & Hrun & Hk).
      exists this', tmp'. split; [exact Hrun|].
      eapply kept_trans; [apply call_kept | exact Hk].
    + destruct (transform_kept source destination tmpTransform this Hop)
        as (this1 & tmp1 & Htr & Hk1).
      rewrite Htr.
      destruct (IH this1 tmp1) as (this' & tmp' & Hrun & Hk).
      exists this', tmp'. split; [exact Hrun|].
      eapply kept_trans; eassumption.
Qed.

End Lifetime.

(** X2.  Over any run of method calls, read accessors and [transform]s in
    any order, whose transform sources resolve: the run returns; the ends,
    the properties, the id and the type of the feature are those it was
    built with, so [get(key)] answers the same before and after; a cache
    slot that was set still holds the same array; and a buffer of even
    count still has the same count (its ends stay offsets into it). *)
Theorem method_calls_keep (E : Engines) (ops : list Operation)
    (this : RenderFeature) (tmpTransform : Transform) :
  Forall resolvable ops ->
  exists this' tmpTransform',
    run ops (this, tmpTransform) = Some (this', tmpTransform')
    /\ ends_ this' = ends_ this
    /\ properties_ this' = properties_ this
    /\ id_ this' = id_ this
    /\ type_ this' = type_ this
    /\ (forall key, result (get key this') = result (get key this))
    /\ (forall s v, slot_value s this = Some v -> slot_value s this' = Some v)
    /\ (Nat.Even (length (flatCoordinates_ this)) ->
        length (flatCoordinates_ this') = length (flatCoordinates_ this)).
Proof.
  intros Hops.
  destruct (run_kept ops this tmpTransform Hops)
    as (this' & tmp' & Hrun & He & Hp & Hi & Ht & Hs & Hl).
  exists this', tmp'. split; [exact Hrun|].
  split; [exact He|]. split; [exact Hp|]. split; [exact Hi|].
  split; [exact Ht|]. split; [|split; [exact Hs | exact Hl]].
  intros key. run_method. rewrite Hp. reflexivity.
Qed.

(** The line from [(0, 0)] to [(1, 1)] with its extent cached, then read,
    transformed, read again, transformed again and read. *)
Lemma method_calls_keep_witness :
  exists this' tmpTransform',
    @run sample_engines sample_run (after (getExtent sample_line), createTransform)
    = Some (this', tmpTransform')
    /\ ends_ this' = FlatEnds [4]
    /\ properties_ this' = properties_ sample_line
    /\ id_ this' = IdNumber (num_of_Z 7)
    /\ type_ this' = LINE_STRING
    /\ (forall key, result (get key this') = result (get key sample_line))
    /\ slot_value ExtentSlot this' = Some (nums [0; 0; 1; 1])
    /\ length (flatCoordinates_ this') = 4%nat.
Proof.
  destruct (method_calls_keep sample_engines sample_run
              (after (getExtent sample_line)) createTransform)
    as (this' & tmp' & Hrun & He & Hp & Hi & Ht & Hget & Hs & Hl).
  - repeat constructor; eexists; reflexivity.
  - exists this', tmp'. split; [exact Hrun|].
    split; [exact He|]. split; [exact Hp|]. split; [exact Hi|].
    split; [exact Ht|]. split; [exact Hget|]. split.
    + apply Hs. reflexivity.
    + apply Hl. exists 2%nat. reflexivity.
Defined.

Section ReadOrder.
Context `{E : Engines}.

Lemma getExtent_result (this : RenderFeature) :
  result (getExtent this)
  = match extent_ this with Some e => e | None => extent_of this end.
Proof.
  destruct (extent_ this) as [e|] eqn:Hs.
  - rewrite (getExtent_set this e Hs). reflexivity.
  - rewrite (getExtent_unset this Hs). reflexivity.
Qed.

(** On an unset slot the accessor returns what it computes and stores it. *)
Lemma call_unset (a : Accessor) (this : RenderFeature) (s : Slot) :
  own_slot a = Some s -> slot_value s this = None ->
  result (call a this) = RetNumbers (computed a this)
  /\ slot_value s (after (call a this)) = Some (computed a this).
Proof.
  intros Hown Hunset.
  destruct a; try discriminate; injection Hown as <-; cbn in Hunset;
    unfold call; rewrite result_fmap, after_fmap; cbn [computed slot_value].
  - rewrite (getExtent_unset this Hunset). split; reflexivity.
  - rewrite (getFlatInteriorPoint_unset this Hunset). split; reflexivity.
  - rewrite (getFlatInteriorPoints_unset this Hunset). split; reflexivity.
  - rewrite (getFlatMidpoint_unset this Hunset). split; reflexivity.
  - rewrite (getFlatMidpoints_unset this Hunset). split; reflexivity.
Qed.

(** How a call can leave a slot that was unset: still unset, filled by the
    accessor that owns it, or, for the extent slot, filled by
    [getFlatInteriorPoint]. *)
Lemma call_fill_cases (b : Accessor) (this : RenderFeature) (s : Slot) :
  slot_value s this = None ->
  slot_value s (after (call b this)) = None
  \/ (own_slot b = Some s
      /\ slot_value s (after (call b this)) = Some (computed b this))
  \/ (b = GetFlatInteriorPoint /\ s = ExtentSlot
      /\ slot_value s (after (call b this)) = Some (extent_of this)).
Proof.
  intros Hunset.
  destruct (own_slot b) as [o|] eqn:Hown;
    [|left; rewrite call_no_slot by exact Hown; exact Hunset].
  destruct (decide (o = s)) as [->|Hne].
  - right. left. split; [reflexivity|].
    apply (call_unset b this s Hown Hunset).
  - destruct (decide (b = GetFlatInteriorPoint /\ s = ExtentSlot))
      as [[-> ->]|Hnot].
    + unfold call. rewrite after_fmap.
      destruct (flatInteriorPoints_ this) as [v|] eqn:Hs.
      * left. rewrite (getFlatInteriorPoint_set this v Hs). exact Hunset.
      * right. right. split; [reflexivity|]. split; [reflexivity|].
        rewrite (getFlatInteriorPoint_unset this Hs).
        cbn in Hunset. rewrite (getExtent_unset this Hunset). reflexivity.
    + left. rewrite <- Hunset. apply call_other_slots.
      destruct b; try discriminate; injection Hown as <-; cbn;
        rewrite ?not_elem_of_cons;
        repeat split; try apply not_elem_of_nil; try congruence.
      intros ->. apply Hnot. split; reflexivity.
Qed.

Lemma getExtent_result_after_call (b : Accessor) (this : RenderFeature) :
  result (getExtent (after (call b this))) = result (getExtent this).
Proof.
  rewrite !getExtent_result.
  rewrite (extent_of_same_data _ _ (call_same_data b this)).
  destruct (extent_ this) as [e|] eqn:Hs.
  - rewrite (call_keeps_set b this ExtentSlot e Hs). reflexivity.
  - destruct (call_fill_cases b this ExtentSlot Hs)
      as [Hn|[[Hown Hf]|(_ & _ & Hf)]]; cbn [slot_value] in *.
    + rewrite Hn. reflexivity.
    + rewrite Hf. destruct b; try discriminate. reflexivity.
    + rewrite Hf. reflexivity.
Qed.

(** What an accessor computes depends on the buffer, the ends and the type,
    and on what [getExtent] answers. *)
Lemma computed_stable (a : Accessor) (this this' : RenderFeature) :
  same_data this this' ->
  result (getExtent this') = result (getExtent this) ->
  computed a this' = computed a this.
Proof.
  intros Hdata Hext.
  pose proof (extent_of_same_data _ _ Hdata) as Hof.
  destruct Hdata as (Hfc & He & _ & _ & Hty).
  destruct a; cbn [computed]; try reflexivity.
  - exact Hof.
  - unfold flatInteriorPoint_of. rewrite Hfc, He, Hext. reflexivity.
  - unfold flatInteriorPoints_of. rewrite Hfc, He. reflexivity.
  - unfold flatMidpoint_of. rewrite Hfc. reflexivity.
  - unfold flatMidpoints_of. rewrite Hfc, He. reflexivity.
Qed.

(** The answer of an accessor with a slot, by the state of its slot. *)
Lemma call_answer (a : Accessor) (this : RenderFeature) (s : Slot) :
  own_slot a = Some s ->
  result (call a this)
  = RetNumbers (default (computed a this) (slot_value s this)).
Proof.
  intros Hown. destruct (slot_value s this) as [v|] eqn:Hs.
  - rewrite (call_set a this s v Hown Hs). reflexivity.
  - apply (call_unset a this s Hown Hs).
Qed.

(** Through a run that does not call the other method of the pair, the slot
    of [a] is as it was or holds the answer [a] gives on the feature before
    the run. *)
Lemma calls_answer (a : Accessor) (s : Slot) (this0 : RenderFeature)
    (l : list Accessor) (this : RenderFeature) :
  own_slot a = Some s ->
  Forall (fun b => own_slot b = Some s -> b = a) l ->
  same_data this0 this ->
  result (getExtent this) = result (getExtent this0) ->
  slot_value s this = slot_value s this0
  \/ slot_value s this
     = Some (default (computed a this0) (slot_value s this0)) ->
  same_data this0 (calls l this)
  /\ result (getExtent (calls l this)) = result (getExtent this0)
  /\ (slot_value s (calls l this) = slot_value s this0
      \/ slot_value s (calls l this)
         = Some (default (computed a this0) (slot_value s this0))).
Proof.
  intros Hown Hl. revert this.
  induction Hl as [|b l Hb _ IH]; intros this Hdata Hext Hslot.
  - split; [exact Hdata|]. split; [exact Hext | exact Hslot].
  - unfold calls. cbn [fold_left]. apply IH.
    + eapply same_data_trans; [exact Hdata | apply call_same_data].
    + rewrite getExtent_result_after_call. exact Hext.
    + destruct Hslot as [Hsame|Hans].
      * destruct (slot_value s this) as [v|] eqn:Hs.
        -- left. rewrite (call_keeps_set b this s v Hs). exact Hsame.
        -- destruct (call_fill_cases b this s Hs)
             as [Hn|[[Hbown Hf]|(-> & -> & Hf)]].
           ++ left. rewrite Hn. exact Hsame.
           ++ right. rewrite Hf, <- Hsame. cbn [default].
              rewrite (Hb Hbown). f_equal.
              apply computed_stable; assumption.
           ++ right. rewrite Hf, <- Hsame. cbn [default].
              destruct a; try discriminate. cbn [computed]. f_equal.
              apply extent_of_same_data, Hdata.
      * right. apply call_keeps_set, Hans.
Qed.

End ReadOrder.

(** X3.  The answer of an accessor with a slot does not depend on the reads
    made before it: after any run of accessor calls that leaves out the
    other method of its pair, it returns what it returns on the feature
    before the run.  For [getExtent], which shares its slot with no other
    accessor, that is after every run of accessor calls. *)
Theorem accessor_after_reads (E : Engines) (a : Accessor) (s : Slot)
    (l : list Accessor) (this : RenderFeature) :
  own_slot a = Some s ->
  Forall (fun b => own_slot b = Some s -> b = a) l ->
  result (call a (calls l this)) = result (call a this)
  /\ forall l', result (getExtent (calls l' this)) = result (getExtent this).
Proof.
  intros Hown Hl.
  assert (Hgen : forall a' s' l',
            own_slot a' = Some s' ->
            Forall (fun b => own_slot b = Some s' -> b = a') l' ->
            result (call a' (calls l' this)) = result (call a' this)).
  { intros a' s' l' Hown' Hl'.
    destruct (calls_answer a' s' this l' this Hown' Hl'
                (same_data_refl this) eq_refl (or_introl eq_refl))
      as (Hdata & Hext & Hslot).
    rewrite (call_answer a' (calls l' this) s' Hown').
    rewrite (call_answer a' this s' Hown').
    f_equal.
    destruct Hslot as [-> | ->].
    - destruct (slot_value s' this); [reflexivity|]. cbn [default].
      apply computed_stable; assumption.
    - reflexivity. }
  split; [apply (Hgen a s l Hown Hl)|].
  intros l'.
  assert (Hx : result (call GetExtent (calls l' this))
               = result (call GetExtent this)).
  { apply (Hgen GetExtent ExtentSlot l' eq_refl).
    apply Forall_forall. intros b _ Hb. destruct b; try discriminate; reflexivity. }
  unfold call in Hx. rewrite !result_fmap in Hx.
  injection Hx as Hx. exact Hx.
Qed.

(** Per-ring midpoints of two lines, asked after the extent, the interior
    point and the midpoints themselves have been read. *)
Lemma accessor_after_reads_witness :
  result (@call sample_engines GetFlatMidpoints
            (@calls sample_engines
               [GetExtent; GetFlatInteriorPoint; GetFlatMidpoints; GetId]
               sample_lines))
  = result (@call sample_engines GetFlatMidpoints sample_lines)
  /\ forall l',
       result (getExtent (@calls sample_engines l' sample_lines))
       = result (getExtent sample_lines).
Proof.
  apply (accessor_after_reads sample_engines GetFlatMidpoints MidpointsSlot
           [GetExtent; GetFlatInteriorPoint; GetFlatMidpoints; GetId]
           sample_lines).
  - reflexivity.
  - repeat constructor; intros H; try discriminate H; reflexivity.
Defined.

Section FiniteBuffers.
Context `{E : Engines}.

Lemma Qc_pair_ind (P : list Qc -> Prop) :
  P [] -> (forall x, P [x]) -> (forall x y l, P l -> P (x :: y :: l)) ->
  forall l, P l.
Proof.
  intros Hnil Hone Hstep.
  assert (Hboth : forall l, P l /\ forall x, P (x :: l)).
  { induction l as [|y l [IH1 IH2]].
    - split; [exact Hnil | exact Hone].
    - split; [apply IH2 | intros x; apply Hstep, IH1]. }
  intros l. apply Hboth.
Qed.

Lemma Even_tail2 {A} (x y : A) (l : list A) :
  Nat.Even (length (x :: y :: l)) -> Nat.Even (length l).
Proof. intros [k Hk]. simpl in Hk. exists (k - 1)%nat. lia. Qed.

Lemma Even_single {A} (x : A) : ~ Nat.Even (length [x]).
Proof. intros [k Hk]. simpl in Hk. lia. Qed.

Lemma Forall_finite_Fin (qs : list Qc) : Forall is_finite (map Fin qs).
Proof. apply Forall_map, Forall_forall. intros q _. exact I. Qed.

Lemma length_map_xy (fx fy : Qc -> Qc) (qs : list Qc) :
  length (map_xy fx fy qs) = length qs.
Proof.
  induction qs as [|x|x y l IH] using Qc_pair_ind; cbn [map_xy length];
    [reflexivity | reflexivity | rewrite IH; reflexivity].
Qed.

Lemma map_pairs_Fin (g : num * num -> num * num) (fx fy : Qc -> Qc)
    (qs : list Qc) :
  Nat.Even (length qs) ->
  (forall x y, g (Fin x, Fin y) = (Fin (fx x), Fin (fy y))) ->
  map_pairs g (map Fin qs) = map Fin (map_xy fx fy qs).
Proof.
  intros Hev Hg.
  induction qs as [|x|x y l IH] using Qc_pair_ind.
  - reflexivity.
  - destruct (Even_single x Hev).
  - cbn [map map_pairs map_xy]. rewrite Hg, IH by exact (Even_tail2 _ _ _ Hev).
    reflexivity.
Qed.

Lemma affine_by_source_Fin (p : Projection) (s minX maxY x y : Qc) :
  scale_of p = Fin s ->
  aget (proj_worldExtent p) 0 = Fin minX ->
  aget (proj_worldExtent p) 3 = Fin maxY ->
  affine_by_source p (Fin x, Fin y)
  = (Fin (scale_x s minX x), Fin (flip_y s maxY y)).
Proof.
  intros Hs H0 H3. unfold affine_by_source, affine_onto.
  rewrite Hs, H0, H3. reflexivity.
Qed.

(** [transform] of a buffer of finite numbers by a projection of finite
    scale and finite world corner, on the rationals. *)
Lemma transform_finite (source destination : ProjectionLike)
    (tmpTransform : Transform) (this : RenderFeature) (p : Projection)
    (s minX maxY : Qc) (qs : list Qc) :
  getProjection source = Some p ->
  scale_of p = Fin s ->
  aget (proj_worldExtent p) 0 = Fin minX ->
  aget (proj_worldExtent p) 3 = Fin maxY ->
  flatCoordinates_ this = map Fin qs ->
  Nat.Even (length qs) ->
  exists tmpTransform',
    transform source destination tmpTransform this
    = Some (set_flatCoordinates_
              (map Fin (map_xy (scale_x s minX) (flip_y s maxY) qs)) this,
            tmpTransform').
Proof.
  intros Hp Hs H0 H3 Hfc Hev.
  destruct (transform_resolved source destination tmpTransform this p Hp)
    as (tmp' & Htr & _).
  exists tmp'. rewrite Htr. do 3 f_equal.
  rewrite Hfc.
  rewrite (map_pairs_ext_in _ (affine_by_source p)).
  - apply map_pairs_Fin; [exact Hev|].
    intros x y. apply affine_by_source_Fin; assumption.
  - intros [x y] Hin.
    destruct (coordinate_pairs_finite (map Fin qs) (x, y)) as [Hx Hy];
      [rewrite length_map; exact Hev | apply Forall_finite_Fin | exact Hin |].
    apply pixel_to_world_affine; [rewrite Hs; exact I | exact Hx | exact Hy].
Qed.

End FiniteBuffers.

Section ExtentOfImage.

Lemma Math_min_Fin (a b : Qc) :
  (Math_min (Fin a) (Fin b) = Fin a /\ (a <= b)%Qc)
  \/ (Math_min (Fin a) (Fin b) = Fin b /\ (b <= a)%Qc).
Proof.
  destruct (Math_min_cases (Fin a) (Fin b)) as [[Heq Hle]|[Heq Hle]];
    try discriminate; [left | right]; (split; [exact Heq | apply nleb_Fin, Hle]).
Qed.

Lemma Math_max_Fin (a b : Qc) :
  (Math_max (Fin a) (Fin b) = Fin a /\ (b <= a)%Qc)
  \/ (Math_max (Fin a) (Fin b) = Fin b /\ (a <= b)%Qc).
Proof.
  destruct (Math_max_cases (Fin a) (Fin b)) as [[Heq Hle]|[Heq Hle]];
    try discriminate; [left | right]; (split; [exact Heq | apply nleb_Fin, Hle]).
Qed.

(** A monotone map commutes with minimum and maximum, an antitone one
    swaps them. *)
Lemma Math_min_mono (f : Qc -> Qc) (a b : Qc) :
  (forall u v, (u <= v)%Qc -> (f u <= f v)%Qc) ->
  Math_min (Fin (f a)) (Fin (f b)) = lift f (Math_min (Fin a) (Fin b)).
Proof.
  intros Hmono.
  destruct (Math_min_Fin a b) as [[-> Hab]|[-> Hba]]; cbn [lift];
    destruct (Math_min_Fin (f a) (f b)) as [[-> Hf]|[-> Hf]];
    try reflexivity; f_equal; apply Qcle_antisym; auto.
Qed.

Lemma Math_max_mono (f : Qc -> Qc) (a b : Qc) :
  (forall u v, (u <= v)%Qc -> (f u <= f v)%Qc) ->
  Math_max (Fin (f a)) (Fin (f b)) = lift f (Math_max (Fin a) (Fin b)).
Proof.
  intros Hmono.
  destruct (Math_max_Fin a b) as [[-> Hab]|[-> Hba]]; cbn [lift];
    destruct (Math_max_Fin (f a) (f b)) as [[-> Hf]|[-> Hf]];
    try reflexivity; f_equal; apply Qcle_antisym; auto.
Qed.

Lemma Math_min_anti (f : Qc -> Qc) (a b : Qc) :
  (forall u v, (u <= v)%Qc -> (f v <= f u)%Qc) ->
  Math_min (Fin (f a)) (Fin (f b)) = lift f (Math_max (Fin a) (Fin b)).
Proof.
  intros Hanti.
  destruct (Math_max_Fin a b) as [[-> Hab]|[-> Hba]]; cbn [lift];
    destruct (Math_min_Fin (f a) (f b)) as [[-> Hf]|[-> Hf]];
    try reflexivity; f_equal; apply Qcle_antisym; auto.
Qed.

Lemma Math_max_anti (f : Qc -> Qc) (a b : Qc) :
  (forall u v, (u <= v)%Qc -> (f v <= f u)%Qc) ->
  Math_max (Fin (f a)) (Fin (f b)) = lift f (Math_min (Fin a) (Fin b)).
Proof.
  intros Hanti.
  destruct (Math_min_Fin a b) as [[-> Hab]|[-> Hba]]; cbn [lift];
    destruct (Math_max_Fin (f a) (f b)) as [[-> Hf]|[-> Hf]];
    try reflexivity; f_equal; apply Qcle_antisym; auto.
Qed.

Lemma Math_min_is_Fin (a b : Qc) : exists c, Math_min (Fin a) (Fin b) = Fin c.
Proof. destruct (Math_min_Fin a b) as [[-> _]|[-> _]]; eexists; reflexivity. Qed.

Lemma Math_max_is_Fin (a b : Qc) : exists c, Math_max (Fin a) (Fin b) = Fin c.
Proof. destruct (Math_max_Fin a b) as [[-> _]|[-> _]]; eexists; reflexivity. Qed.

Lemma fold_is_Fin (op : num -> num -> num) (xs : list Qc) (a : Qc) :
  (forall u v, exists c, op (Fin u) (Fin v) = Fin c) ->
  exists m, fold_left op (map Fin xs) (Fin a) = Fin m.
Proof.
  intros Hop. revert a. induction xs as [|x xs IH]; intros a.
  - exists a. reflexivity.
  - cbn [map fold_left]. destruct (Hop a x) as [c ->]. apply IH.
Qed.

(** The running bound of the images is the image of a running bound. *)
Lemma fold_lift (op op' : num -> num -> num) (f : Qc -> Qc) (xs : list Qc)
    (a : Qc) :
  (forall u v, exists c, op' (Fin u) (Fin v) = Fin c) ->
  (forall u v, op (Fin (f u)) (Fin (f v)) = lift f (op' (Fin u) (Fin v))) ->
  fold_left op (map Fin (map f xs)) (Fin (f a))
  = lift f (fold_left op' (map Fin xs) (Fin a)).
Proof.
  intros Hfin Hop. revert a. induction xs as [|x xs IH]; intros a.
  - reflexivity.
  - cbn [map fold_left]. rewrite Hop.
    destruct (Hfin a x) as [c ->]. cbn [lift]. apply IH.
Qed.

Lemma scale_x_mono (s minX u v : Qc) :
  (0 <= s)%Qc -> (u <= v)%Qc -> (scale_x s minX u <= scale_x s minX v)%Qc.
Proof.
  intros Hs Huv. unfold scale_x.
  apply Qcplus_le_compat; [|apply Qcle_refl].
  rewrite !(Qcmult_comm s). apply Qcmult_le_compat_r; assumption.
Qed.

Lemma flip_y_anti (s maxY u v : Qc) :
  (0 <= s)%Qc -> (u <= v)%Qc -> (flip_y s maxY v <= flip_y s maxY u)%Qc.
Proof.
  intros Hs Huv. unfold flip_y.
  apply Qcplus_le_compat; [|apply Qcle_refl].
  replace (- s * v)%Qc with (- (v * s))%Qc by ring.
  replace (- s * u)%Qc with (- (u * s))%Qc by ring.
  apply Qcopp_le_compat, Qcmult_le_compat_r; assumption.
Qed.

Lemma xs_of_pairs (qs : list Qc) :
  Nat.Even (length qs) ->
  map fst (coordinate_pairs (map Fin qs)) = map Fin (xs_of qs)
  /\ map snd (coordinate_pairs (map Fin qs)) = map Fin (ys_of qs).
Proof.
  induction qs as [|x|x y l IH] using Qc_pair_ind; intros Hev.
  - split; reflexivity.
  - destruct (Even_single x Hev).
  - destruct (IH (Even_tail2 _ _ _ Hev)) as [IHx IHy].
    cbn [map coordinate_pairs xs_of ys_of fst snd].
    rewrite IHx, IHy. split; reflexivity.
Qed.

Lemma xs_of_map_xy (fx fy : Qc -> Qc) (qs : list Qc) :
  xs_of (map_xy fx fy qs) = map fx (xs_of qs)
  /\ ys_of (map_xy fx fy qs) = map fy (ys_of qs).
Proof.
  induction qs as [|x|x y l [IHx IHy]] using Qc_pair_ind;
    cbn [map_xy xs_of ys_of map]; [split; reflexivity .. |].
  rewrite IHx, IHy. split; reflexivity.
Qed.

(** The extent of a buffer of finite numbers that starts with the pair
    [(x0, y0)], by the type. *)
Lemma extent_of_Fin (this : RenderFeature) (x0 y0 : Qc) (rest : list Qc) :
  flatCoordinates_ this = map Fin (x0 :: y0 :: rest) ->
  Nat.Even (length rest) ->
  extent_of this
  = if decide (type_ this = POINT)
    then [Fin x0; Fin y0; Fin x0; Fin y0]
    else [ fold_left Math_min (map Fin (xs_of rest)) (Fin x0);
           fold_left Math_min (map Fin (ys_of rest)) (Fin y0);
           fold_left Math_max (map Fin (xs_of rest)) (Fin x0);
           fold_left Math_max (map Fin (ys_of rest)) (Fin y0) ].
Proof.
  intros Hfc Hev. unfold extent_of. rewrite Hfc.
  destruct (decide (type_ this = POINT)) as [_|_]; [reflexivity|].
  rewrite createOrUpdateFromFlatCoordinates_whole.
  cbn [map coordinate_pairs fst snd].
  destruct (xs_of_pairs rest Hev) as [-> ->].
  reflexivity.
Qed.

End ExtentOfImage.

(** X5.  The extent of a transformed feature is the image of its extent.
    On a feature whose extent is not cached yet, with a non-empty buffer of
    even count and finite numbers, and a projection of finite scale
    [s >= 0] and finite world corner [(minX, maxY)]: if the extent before
    the transform is [[a, b, c, d]], then [getExtent] after the transform
    returns [[s a + minX, - s d + maxY, s c + minX, - s b + maxY]]; the
    flip of [y] exchanges the lower and the upper bound. *)
Theorem getExtent_after_transform (E : Engines)
    (source destination : ProjectionLike) (tmpTransform : Transform)
    (this : RenderFeature) (p : Projection) (s minX maxY : Qc)
    (qs : list Qc) :
  getProjection source = Some p ->
  scale_of p = Fin s ->
  (0 <= s)%Qc ->
  aget (proj_worldExtent p) 0 = Fin minX ->
  aget (proj_worldExtent p) 3 = Fin maxY ->
  flatCoordinates_ this = map Fin qs ->
  qs <> [] ->
  Nat.Even (length qs) ->
  extent_ this = None ->
  exists a b c d this' tmpTransform',
    extent_of this = [Fin a; Fin b; Fin c; Fin d]
    /\ transform source destination tmpTransform this
       = Some (this', tmpTransform')
    /\ result (getExtent this')
       = [ Fin (s * a + minX)%Qc; Fin (- s * d + maxY)%Qc;
           Fin (s * c + minX)%Qc; Fin (- s * b + maxY)%Qc ].
Proof.
  intros Hp Hs Hpos H0 H3 Hfc Hne Hev Hunset.
  destruct qs as [|x0 [|y0 rest]];
    [contradiction | destruct (Even_single x0 Hev) |].
  pose proof (Even_tail2 _ _ _ Hev) as Hrest.
  destruct (transform_finite source destination tmpTransform this p
              s minX maxY (x0 :: y0 :: rest) Hp Hs H0 H3 Hfc Hev)
    as (tmp' & Htr).
  set (fx := scale_x s minX) in *. set (fy := flip_y s maxY) in *.
  set (this' := set_flatCoordinates_
                  (map Fin (map_xy fx fy (x0 :: y0 :: rest))) this) in *.
  assert (Hres : result (getExtent this') = extent_of this')
    by (rewrite (getExtent_unset this' Hunset); reflexivity).
  assert (Hof' : extent_of this'
                 = if decide (type_ this = POINT)
                   then [Fin (fx x0); Fin (fy y0); Fin (fx x0); Fin (fy y0)]
                   else [ fold_left Math_min (map Fin (map fx (xs_of rest)))
                                    (Fin (fx x0));
                          fold_left Math_min (map Fin (map fy (ys_of rest)))
                                    (Fin (fy y0));
                          fold_left Math_max (map Fin (map fx (xs_of rest)))
                                    (Fin (fx x0));
                          fold_left Math_max (map Fin (map fy (ys_of rest)))
                                    (Fin (fy y0)) ]).
  { rewrite (extent_of_Fin this' (fx x0) (fy y0) (map_xy fx fy rest));
      [|reflexivity|rewrite length_map_xy; exact Hrest].
    destruct (xs_of_map_xy fx fy rest) as [-> ->]. reflexivity. }
  rewrite (extent_of_Fin this x0 y0 rest Hfc Hrest).
  revert Hof'. destruct (decide (type_ this = POINT)) as [_|_]; intros Hof'.
  - exists x0, y0, x0, y0, this', tmp'.
    split; [reflexivity|]. split; [exact Htr|].
    rewrite Hres, Hof'. reflexivity.
  - destruct (fold_is_Fin Math_min (xs_of rest) x0 Math_min_is_Fin) as [a Ha].
    destruct (fold_is_Fin Math_min (ys_of rest) y0 Math_min_is_Fin) as [b Hb].
    destruct (fold_is_Fin Math_max (xs_of rest) x0 Math_max_is_Fin) as [c Hc].
    destruct (fold_is_Fin Math_max (ys_of rest) y0 Math_max_is_Fin) as [d Hd].
    exists a, b, c, d, this', tmp'.
    split; [rewrite Ha, Hb, Hc, Hd; reflexivity|]. split; [exact Htr|].
    rewrite Hres, Hof'.
    rewrite (fold_lift Math_min Math_min fx (xs_of rest) x0 Math_min_is_Fin)
      by (intros u v; apply Math_min_mono; intros; apply scale_x_mono; assumption).
    rewrite (fold_lift Math_min Math_max fy (ys_of rest) y0 Math_max_is_Fin)
      by (intros u v; apply Math_min_anti; intros; apply flip_y_anti; assumption).
    rewrite (fold_lift Math_max Math_max fx (xs_of rest) x0 Math_max_is_Fin)
      by (intros u v; apply Math_max_mono; intros; apply scale_x_mono; assumption).
    rewrite (fold_lift Math_max Math_min fy (ys_of rest) y0 Math_min_is_Fin)
      by (intros u v; apply Math_max_anti; intros; apply flip_y_anti; assumption).
    rewrite Ha, Hb, Hc, Hd. reflexivity.
Qed.

(** The line from [(0, 0)] to [(1, 1)] in the tile of scale [2] onto the
    world extent [[0, 0, 8, 8]]. *)
Lemma getExtent_after_transform_witness :
  exists a b c d this' tmpTransform',
    extent_of sample_line = [Fin a; Fin b; Fin c; Fin d]
    /\ @transform sample_engines (ProjObject sample_tile)
         (ProjObject sample_world) createTransform sample_line
       = Some (this', tmpTransform')
    /\ result (getExtent this')
       = [ Fin (Qc_of_Z 2 * a + Qc_of_Z 0)%Qc;
           Fin (- Qc_of_Z 2 * d + Qc_of_Z 8)%Qc;
           Fin (Qc_of_Z 2 * c + Qc_of_Z 0)%Qc;
           Fin (- Qc_of_Z 2 * b + Qc_of_Z 8)%Qc ].
Proof.
  apply (getExtent_after_transform sample_engines (ProjObject sample_tile)
           (ProjObject sample_world) createTransform sample_line sample_tile
           (Qc_of_Z 2) (Qc_of_Z 0) (Qc_of_Z 8) (map Qc_of_Z [0; 0; 1; 1])).
  - reflexivity.
  - apply (f_equal Fin), Qc_is_canon. reflexivity.
  - rewrite <- Z2Qc_inj_0. apply (proj1 (Z2Qc_inj_le 0 2)). lia.
  - reflexivity.
  - reflexivity.
  - reflexivity.
  - discriminate.
  - exists 2%nat. reflexivity.
  - reflexivity.
Defined.

(** X6.  A feature transformed before it is first read never serves a
    value of the old buffer: on a feature from the constructor,
    [transform] on a resolvable source returns, and every accessor with a
    slot, called after any run of reads that leaves out the other method of
    its pair, returns what it computes from the transformed feature. *)
Theorem reads_after_first_transform (E : Engines)
    (source destination : ProjectionLike) (tmpTransform : Transform)
    (type : GeometryType) (flatCoordinates : list num) (ends : Ends)
    (properties : JsObject) (id : FeatureId) (p : Projection)
    (a : Accessor) (s : Slot) (l : list Accessor) :
  getProjection source = Some p ->
  own_slot a = Some s ->
  Forall (fun b => own_slot b = Some s -> b = a) l ->
  exists this' tmpTransform',
    transform source destination tmpTransform
      (new_RenderFeature type flatCoordinates ends properties id)
    = Some (this', tmpTransform')
    /\ flatCoordinates_ this' = map_pairs (pixel_to_world p) flatCoordinates
    /\ result (call a (calls l this')) = RetNumbers (computed a this')
    /\ result (getExtent (calls l this')) = extent_of this'.
Proof.
  intros Hp Hown Hl.
  destruct (transform_resolved source destination tmpTransform
              (new_RenderFeature type flatCoordinates ends properties id) p Hp)
    as (tmp' & Htr & _).
  eexists _, tmp'. split; [exact Htr|]. split; [reflexivity|].
  set (this' := set_flatCoordinates_ _ _).
  assert (Hnone : forall s', slot_value s' this' = None)
    by (intros s'; destruct s'; reflexivity).
  destruct (calls_answer a s this' l this' Hown Hl
              (same_data_refl this') eq_refl (or_introl eq_refl))
    as (Hdata & Hext & Hslot).
  split.
  - rewrite (call_answer a (calls l this') s Hown).
    rewrite (Hnone s) in Hslot. cbn [default] in Hslot.
    destruct Hslot as [-> | ->]; cbn [default]; [|reflexivity].
    f_equal. apply computed_stable; assumption.
  - rewrite Hext. rewrite (getExtent_unset this' (Hnone ExtentSlot)).
    reflexivity.
Qed.

Lemma reads_after_first_transform_witness :
  exists this' tmpTransform',
    @transform sample_engines (ProjObject sample_tile) (ProjObject sample_world)
      createTransform
      (new_RenderFeature LINE_STRING (nums [0; 0; 1; 1]) (FlatEnds [4])
         (object_literal ∅) IdUndefined)
    = Some (this', tmpTransform')
    /\ flatCoordinates_ this'
       = map_pairs (@pixel_to_world sample_engines sample_tile)
           (nums [0; 0; 1; 1])
    /\ result (@call sample_engines GetFlatMidpoint
                 (@calls sample_engines [GetExtent; GetFlatInteriorPoints]
                    this'))
       = RetNumbers (@computed sample_engines GetFlatMidpoint this')
    /\ result (getExtent (@calls sample_engines
                            [GetExtent; GetFlatInteriorPoints] this'))
       = extent_of this'.
Proof.
  apply (reads_after_first_transform sample_engines (ProjObject sample_tile)
           (ProjObject sample_world) createTransform LINE_STRING
           (nums [0; 0; 1; 1]) (FlatEnds [4]) (object_literal ∅) IdUndefined
           sample_tile
           GetFlatMidpoint MidpointsSlot [GetExtent; GetFlatInteriorPoints]).
  - reflexivity.
  - reflexivity.
  - repeat constructor; intros H; discriminate H.
Defined.

(** X7.  On a feature with the one flat end that is the length of its
    buffer (a single line over the whole buffer), [getFlatMidpoints] and
    [getFlatMidpoint] are the same method: same array returned, same
    feature left, whatever the slot holds. *)
Theorem single_line_midpoints (E : Engines) (this : RenderFeature) :
  ends_ this = FlatEnds [alength (flatCoordinates_ this)] ->
  getFlatMidpoints this = getFlatMidpoint this.
Proof.
  intros Hends.
  destruct (flatMidpoints_ this) as [v|] eqn:Hs.
  - rewrite (getFlatMidpoints_set this v Hs), (getFlatMidpoint_set this v Hs).
    reflexivity.
  - rewrite (getFlatMidpoints_unset this Hs), (getFlatMidpoint_unset this Hs).
    assert (Hsame : flatMidpoints_of this = flatMidpoint_of this).
    { unfold flatMidpoints_of, flatMidpoint_of. rewrite Hends.
      cbn [ends_items map fold_left midpoints_step fst]. unfold extend.
      reflexivity. }
    rewrite Hsame. reflexivity.
Qed.

Lemma single_line_midpoints_witness :
  @getFlatMidpoints sample_engines sample_line
  = @getFlatMidpoint sample_engines sample_line.
Proof.
  apply (single_line_midpoints sample_engines sample_line).
  reflexivity.
Defined.
